(** * A push-based stream library: observers, sources and operators

    The TypeScript program builds streams out of closures: a stream is a
    function that is handed an observer and returns a cleanup function, and
    every operator keeps its counters and flags in variables captured by the
    callbacks it hands upstream.  The embedding keeps that shape.  Code is
    written in a small monad of programs [Prog] whose operations are the ones
    the source uses (closure variables, arrays, the host's timers, promises
    and producers); observers, streams and operators are Rocq records and
    functions over it.  An interpreter [exec] runs a program on a [World]
    that holds the variables, the heap objects and the callbacks registered
    with the host, and a host loop [play] feeds it timer ticks, promise
    settlements and producer deliveries. *)

From Stdlib Require Import ZArith Lia Bool.
From stdpp Require Import base list.

Set Warnings "-register-all".
Set Default Proof Using "Type".
Open Scope Z_scope.

(** ** Values *)

Definition loc := nat.

Inductive errkind := ReferenceError | TypeError.

(** First-order JavaScript values.  [VRef] is a reference to a heap object
    (an array or a plain object) and is compared by identity; [VFun] is what
    reading a variable bound to a function gives when the function itself is
    not needed. *)
Inductive value :=
| VUndef
| VBool (b : bool)
| VNum (z : Z)
| VRef (l : loc)
| VErr (k : errkind)
| VFun.

(** [===] on the values above. *)
Definition strict_eq (a b : value) : bool :=
  match a, b with
  | VUndef, VUndef => true
  | VBool x, VBool y => Bool.eqb x y
  | VNum x, VNum y => Z.eqb x y
  | VRef x, VRef y => Nat.eqb x y
  | _, _ => false
  end.

Definition num (v : value) : Z := match v with VNum z => z | _ => 0 end.
Definition truthy (v : value) : bool :=
  match v with
  | VUndef => false
  | VBool b => b
  | VNum z => negb (Z.eqb z 0)
  | _ => true
  end.

(** What the terminal observer is told. *)
Inductive call :=
| OnNext (v : value)
| OnTuple (a : loc) (snapshot : list value)
| OnError (e : value)
| OnComplete.

(** ** Programs

    One constructor per operation the source performs on its surroundings;
    the last argument is the rest of the program. *)
Inductive Prog (A : Type) : Type :=
| Ret (a : A)
| Throw (e : value)
(* closure variables: [let]/[const] bindings captured by callbacks *)
| Decl (k : loc -> Prog A)
| SetVal (x : loc) (v : value) (k : Prog A)
| SetFn (x : loc) (f : Prog unit) (k : Prog A)
| GetVal (x : loc) (k : value -> Prog A)
| Call (x : loc) (k : Prog A)
| CallOpt (x : loc) (k : Prog A)
(* heap objects *)
| NewObj (k : loc -> Prog A)
| NewArr (n : nat) (k : loc -> Prog A)
| ArrFill (a : loc) (v : value) (k : Prog A)
| ArrLen (a : loc) (k : nat -> Prog A)
| ArrGet (a : loc) (i : nat) (k : value -> Prog A)
| ArrSet (a : loc) (i : nat) (v : value) (k : Prog A)
| ArrSetFn (a : loc) (i : nat) (f : Prog unit) (k : Prog A)
| CallElem (a : loc) (i : nat) (k : Prog A)
(* the host *)
| SetInterval (cb : Prog unit) (millis : Z) (k : nat -> Prog A)
| ClearInterval (id : nat) (k : Prog A)
| ThenCatch (promise : nat) (onFulfilled onRejected : value -> Prog unit)
    (k : Prog A)
| Attach (onNext : value -> Prog unit) (onError : option (value -> Prog unit))
    (onComplete : option (Prog unit)) (k : nat -> Prog A)
| Detach (rid : nat) (k : Prog A)
| Tell (c : call) (k : Prog A).

Arguments Ret {A} a.
Arguments Throw {A} e.
Arguments Decl {A} k.
Arguments SetVal {A} x v k.
Arguments SetFn {A} x f k.
Arguments GetVal {A} x k.
Arguments Call {A} x k.
Arguments CallOpt {A} x k.
Arguments NewObj {A} k.
Arguments NewArr {A} n k.
Arguments ArrFill {A} a v k.
Arguments ArrLen {A} a k.
Arguments ArrGet {A} a i k.
Arguments ArrSet {A} a i v k.
Arguments ArrSetFn {A} a i f k.
Arguments CallElem {A} a i k.
Arguments SetInterval {A} cb millis k.
Arguments ClearInterval {A} id k.
Arguments ThenCatch {A} promise onFulfilled onRejected k.
Arguments Attach {A} onNext onError onComplete k.
Arguments Detach {A} rid k.
Arguments Tell {A} c k.

Fixpoint bind {A B : Type} (p : Prog A) (f : A -> Prog B) : Prog B :=
  match p with
  | Ret a => f a
  | Throw e => Throw e
  | Decl k => Decl (fun x => bind (k x) f)
  | SetVal x v k => SetVal x v (bind k f)
  | SetFn x g k => SetFn x g (bind k f)
  | GetVal x k => GetVal x (fun v => bind (k v) f)
  | Call x k => Call x (bind k f)
  | CallOpt x k => CallOpt x (bind k f)
  | NewObj k => NewObj (fun x => bind (k x) f)
  | NewArr n k => NewArr n (fun x => bind (k x) f)
  | ArrFill a v k => ArrFill a v (bind k f)
  | ArrLen a k => ArrLen a (fun n => bind (k n) f)
  | ArrGet a i k => ArrGet a i (fun v => bind (k v) f)
  | ArrSet a i v k => ArrSet a i v (bind k f)
  | ArrSetFn a i g k => ArrSetFn a i g (bind k f)
  | CallElem a i k => CallElem a i (bind k f)
  | SetInterval cb ms k => SetInterval cb ms (fun x => bind (k x) f)
  | ClearInterval id k => ClearInterval id (bind k f)
  | ThenCatch p g h k => ThenCatch p g h (bind k f)
  | Attach n e c k => Attach n e c (fun x => bind (k x) f)
  | Detach r k => Detach r (bind k f)
  | Tell c k => Tell c (bind k f)
  end.

Declare Scope prog_scope.
Delimit Scope prog_scope with prog.
Bind Scope prog_scope with Prog.
Notation "x <- c1 ;; c2" := (bind c1 (fun x => c2))
  (at level 100, c1 at next level, right associativity) : prog_scope.
Notation "c1 ;; c2" := (bind c1 (fun _ => c2))
  (at level 100, right associativity) : prog_scope.
Open Scope prog_scope.

(** The operations as one-step programs. *)
Definition skip : Prog unit := Ret tt.
Definition decl : Prog loc := Decl Ret.
Definition set_val (x : loc) (v : value) : Prog unit := SetVal x v skip.
Definition set_fn (x : loc) (f : Prog unit) : Prog unit := SetFn x f skip.
Definition get_val (x : loc) : Prog value := GetVal x Ret.
Definition call_fn (x : loc) : Prog unit := Call x skip.
Definition call_opt (x : loc) : Prog unit := CallOpt x skip.
Definition new_obj : Prog loc := NewObj Ret.
Definition new_arr (n : nat) : Prog loc := NewArr n Ret.
Definition arr_fill (a : loc) (v : value) : Prog unit := ArrFill a v skip.
Definition arr_len (a : loc) : Prog nat := ArrLen a Ret.
Definition arr_get (a : loc) (i : nat) : Prog value := ArrGet a i Ret.
Definition arr_set (a : loc) (i : nat) (v : value) : Prog unit :=
  ArrSet a i v skip.
Definition arr_set_fn (a : loc) (i : nat) (f : Prog unit) : Prog unit :=
  ArrSetFn a i f skip.
Definition call_elem (a : loc) (i : nat) : Prog unit := CallElem a i skip.
Definition setInterval (cb : Prog unit) (millis : Z) : Prog nat :=
  SetInterval cb millis Ret.
Definition clearInterval (id : nat) : Prog unit := ClearInterval id skip.
Definition then_catch (promise : nat) (f g : value -> Prog unit) : Prog unit :=
  ThenCatch promise f g skip.
Definition attach (n : value -> Prog unit) (e : option (value -> Prog unit))
    (c : option (Prog unit)) : Prog nat :=
  Attach n e c Ret.
Definition detach (rid : nat) : Prog unit := Detach rid skip.
Definition tell (c : call) : Prog unit := Tell c skip.

(** [let x = v]: the binding is created and initialised at once. *)
Definition new_var (v : value) : Prog loc :=
  x <- decl;; set_val x v;; Ret x.

(** [x++] as an expression: the old value, after storing the new one. *)
Definition post_incr (x : loc) : Prog value :=
  v <- get_val x;; set_val x (VNum (num v + 1));; Ret v.

(** [f?.(args)] on an optional callback of an observer. *)
Definition opt_call (c : option (Prog unit)) : Prog unit :=
  match c with Some p => p | None => skip end.
Definition opt_call1 (c : option (value -> Prog unit)) (v : value) : Prog unit :=
  match c with Some p => p v | None => skip end.

(** [for (let i = 0; i < xs.length; i++) body(i, xs[i])], from index [i]. *)
Fixpoint for_each {X : Type} (i : nat) (xs : list X) (body : nat -> X -> Prog unit)
    : Prog unit :=
  match xs with
  | [] => skip
  | x :: rest => body i x;; for_each (S i) rest body
  end.

(** [for (const f of arr) f()]. *)
Definition call_all (a : loc) : Prog unit :=
  n <- arr_len a;; for_each 0%nat (seq 0 n) (fun _ i => call_elem a i).

(** ** The world a program runs in *)

(** What a variable or an array element holds.  [Blank] is a binding that is
    declared but not yet initialised, or a hole of an array. *)
Inductive slot :=
| Blank
| Val (v : value)
| Fn (f : Prog unit).

Inductive hobj :=
| HObj
| HArr (elems : list slot).

Inductive pstate :=
| Fulfilled (v : value)
| Rejected (e : value).

Record reaction := Reaction {
  r_promise : nat;
  r_fulfilled : value -> Prog unit;
  r_rejected : value -> Prog unit
}.

(** A promise job.  [promise.then(f).catch(g)] makes two promises: the one
    [then] returns, settled by the job that runs [f], and the one [catch]
    returns.  [j_run] is the first job; when it throws, the promise [then]
    returned is rejected and [j_catch], the [g] chained on it, is queued as
    a job of its own, behind the jobs already waiting. *)
Record job := Job {
  j_run : Prog unit;
  j_catch : option (value -> Prog unit)
}.

Record registration := Registration {
  g_next : value -> Prog unit;
  g_error : option (value -> Prog unit);
  g_complete : option (Prog unit);
  g_attached : bool
}.

Record World := mkWorld {
  vars : list slot;
  heap : list hobj;
  timers : list (option (Prog unit * Z));
  settled : list (nat * pstate);
  reactions : list reaction;
  jobs : list job;
  regs : list registration;
  log : list call;
  uncaught : list value
}.

Definition empty_world : World := mkWorld [] [] [] [] [] [] [] [] [].

Definition with_vars (f : list slot -> list slot) (w : World) : World :=
  mkWorld (f (vars w)) (heap w) (timers w) (settled w) (reactions w) (jobs w)
    (regs w) (log w) (uncaught w).
Definition with_heap (f : list hobj -> list hobj) (w : World) : World :=
  mkWorld (vars w) (f (heap w)) (timers w) (settled w) (reactions w) (jobs w)
    (regs w) (log w) (uncaught w).
Definition with_timers (f : list (option (Prog unit * Z)) ->
    list (option (Prog unit * Z))) (w : World) : World :=
  mkWorld (vars w) (heap w) (f (timers w)) (settled w) (reactions w) (jobs w)
    (regs w) (log w) (uncaught w).
Definition with_settled (f : list (nat * pstate) -> list (nat * pstate))
    (w : World) : World :=
  mkWorld (vars w) (heap w) (timers w) (f (settled w)) (reactions w) (jobs w)
    (regs w) (log w) (uncaught w).
Definition with_reactions (f : list reaction -> list reaction) (w : World)
    : World :=
  mkWorld (vars w) (heap w) (timers w) (settled w) (f (reactions w)) (jobs w)
    (regs w) (log w) (uncaught w).
Definition with_jobs (f : list job -> list job) (w : World) : World :=
  mkWorld (vars w) (heap w) (timers w) (settled w) (reactions w) (f (jobs w))
    (regs w) (log w) (uncaught w).
Definition with_regs (f : list registration -> list registration) (w : World)
    : World :=
  mkWorld (vars w) (heap w) (timers w) (settled w) (reactions w) (jobs w)
    (f (regs w)) (log w) (uncaught w).
Definition with_log (f : list call -> list call) (w : World) : World :=
  mkWorld (vars w) (heap w) (timers w) (settled w) (reactions w) (jobs w)
    (regs w) (f (log w)) (uncaught w).
Definition with_uncaught (f : list value -> list value) (w : World) : World :=
  mkWorld (vars w) (heap w) (timers w) (settled w) (reactions w) (jobs w)
    (regs w) (log w) (f (uncaught w)).

(** [arr[i] = s]; JavaScript grows the array when [i] is past its end. *)
Definition arr_write (xs : list slot) (i : nat) (s : slot) : list slot :=
  if (i <? length xs)%nat then <[i := s]> xs
  else xs ++ replicate (i - length xs) Blank ++ [s].

Definition elems_of (w : World) (a : loc) : list slot :=
  match heap w !! a with
  | Some (HArr xs) => xs
  | _ => []
  end.

Definition slot_value (s : option slot) : value :=
  match s with
  | Some (Val v) => v
  | Some (Fn _) => VFun
  | _ => VUndef
  end.

Definition store_elem (a : loc) (i : nat) (s : slot) (w : World) : World :=
  with_heap (fun h => <[a := HArr (arr_write (elems_of w a) i s)]> h) w.

Fixpoint lookup_settled (p : nat) (l : list (nat * pstate)) : option pstate :=
  match l with
  | [] => None
  | (q, s) :: rest => if Nat.eqb p q then Some s else lookup_settled p rest
  end.

(** The job a settled promise queues for [promise.then(f).catch(g)].  On
    fulfilment it runs [f].  On rejection [then], which was given no handler
    for it, throws the reason on.  Either way [g] is chained on the job, and
    runs one job later if at all. *)
Definition reaction_job (s : pstate) (f g : value -> Prog unit) : job :=
  match s with
  | Fulfilled v => Job (f v) (Some g)
  | Rejected e => Job (Throw e) (Some g)
  end.

Definition detach_reg (r : registration) : registration :=
  Registration (g_next r) (g_error r) (g_complete r) false.

Inductive Outcome (A : Type) :=
| Done (a : A) (w : World)
| Raised (e : value) (w : World)
| OutOfFuel.
Arguments Done {A} a w.
Arguments Raised {A} e w.
Arguments OutOfFuel {A}.

(** [run callee p w] runs [p] on [w].  A program is a finite tree and [run]
    follows it; the one thing it cannot follow structurally is the call of a
    function found in a variable or an array element, which it hands to
    [callee]. *)
Fixpoint run (callee : Prog unit -> World -> Outcome unit) {A : Type}
    (p : Prog A) (w : World) {struct p} : Outcome A :=
  let invoke (s : option slot) (missing : errkind) (k : Prog A) :=
    match s with
    | Some (Fn f) =>
        match callee f w with
        | Done _ w' => run callee k w'
        | Raised e w' => Raised e w'
        | OutOfFuel => OutOfFuel
        end
    | Some (Val _) => Raised (VErr TypeError) w
    | _ => Raised (VErr missing) w
    end in
  match p with
  | Ret a => Done a w
  | Throw e => Raised e w
  | Decl k =>
      run callee (k (length (vars w))) (with_vars (fun l => l ++ [Blank]) w)
  | SetVal x v k => run callee k (with_vars (fun l => <[x := Val v]> l) w)
  | SetFn x f k => run callee k (with_vars (fun l => <[x := Fn f]> l) w)
  | GetVal x k =>
      match vars w !! x with
      | Some Blank | None => Raised (VErr ReferenceError) w
      | s => run callee (k (slot_value s)) w
      end
  | Call x k => invoke (vars w !! x) ReferenceError k
  | CallOpt x k =>
      match vars w !! x with
      | Some (Val VUndef) => run callee k w
      | s => invoke s ReferenceError k
      end
  | NewObj k =>
      run callee (k (length (heap w))) (with_heap (fun h => h ++ [HObj]) w)
  | NewArr n k =>
      run callee (k (length (heap w)))
        (with_heap (fun h => h ++ [HArr (replicate n Blank)]) w)
  | ArrFill a v k =>
      run callee k
        (with_heap
           (fun h => <[a := HArr ((fun _ => Val v) <$> elems_of w a)]> h) w)
  | ArrLen a k => run callee (k (length (elems_of w a))) w
  | ArrGet a i k => run callee (k (slot_value (elems_of w a !! i))) w
  | ArrSet a i v k => run callee k (store_elem a i (Val v) w)
  | ArrSetFn a i f k => run callee k (store_elem a i (Fn f) w)
  | CallElem a i k => invoke (elems_of w a !! i) TypeError k
  | SetInterval cb ms k =>
      run callee (k (length (timers w)))
        (with_timers (fun t => t ++ [Some (cb, ms)]) w)
  | ClearInterval id k =>
      run callee k (with_timers (fun t => <[id := None]> t) w)
  | ThenCatch p f g k =>
      match lookup_settled p (settled w) with
      | Some s =>
          run callee k (with_jobs (fun j => j ++ [reaction_job s f g]) w)
      | None =>
          run callee k (with_reactions (fun r => r ++ [Reaction p f g]) w)
      end
  | Attach n e c k =>
      run callee (k (length (regs w)))
        (with_regs (fun r => r ++ [Registration n e c true]) w)
  | Detach rid k => run callee k (with_regs (fun r => alter detach_reg rid r) w)
  | Tell c k => run callee k (with_log (fun l => l ++ [c]) w)
  end.

(** Calls of stored functions nest at most [fuel] deep. *)
Fixpoint callee (fuel : nat) (f : Prog unit) (w : World) : Outcome unit :=
  match fuel with
  | O => OutOfFuel
  | S fuel' => run (callee fuel') f w
  end.

Definition exec (fuel : nat) {A : Type} (p : Prog A) (w : World) : Outcome A :=
  run (callee fuel) p w.

(** ** The host loop *)

(** What the host, a producer under test or the consumer does next. *)
Inductive action :=
| Tick (id : nat)
| Resolve (promise : nat) (v : value)
| Reject (promise : nat) (e : value)
| Emit (rid : nat) (v : value)
| Finish (rid : nat)
| Fail (rid : nat) (e : value)
| Unsubscribe.

(** A task runs to its end; what it throws is reported and the loop goes on. *)
Definition run_task (fuel : nat) (p : Prog unit) (w : World) : option World :=
  match exec fuel p w with
  | Done _ w' => Some w'
  | Raised e w' => Some (with_uncaught (fun l => l ++ [e]) w')
  | OutOfFuel => None
  end.

(** A promise job runs to its end.  What it throws goes to the handler
    chained on it, as a new job at the end of the queue; with no handler
    chained it is reported. *)
Definition run_job (fuel : nat) (j : job) (w : World) : option World :=
  match exec fuel (j_run j) w with
  | Done _ w' => Some w'
  | Raised e w' =>
      Some match j_catch j with
           | Some g => with_jobs (fun q => q ++ [Job (g e) None]) w'
           | None => with_uncaught (fun l => l ++ [e]) w'
           end
  | OutOfFuel => None
  end.

(** The promise jobs queued so far run before the next task, first come
    first served; a job may queue further jobs, and [n] bounds how many run.
    The queue is looked at first, so that an empty queue needs no bound. *)
Fixpoint drain_jobs (n fuel : nat) (j : job) (rest : list job) (w : World)
    : option World :=
  match n with
  | O => None
  | S n' =>
      match run_job fuel j (with_jobs (fun _ => rest) w) with
      | Some w' =>
          match jobs w' with
          | [] => Some w'
          | j' :: rest' => drain_jobs n' fuel j' rest' w'
          end
      | None => None
      end
  end.

(** A reaction and the handler chained on it are two jobs: [n] reactions
    may take [2 n] jobs. *)
Definition drain (n fuel : nat) (w : World) : option World :=
  match jobs w with
  | [] => Some w
  | j :: rest => drain_jobs (n * 2) fuel j rest w
  end.

(** A promise settles once; its pending reactions become jobs. *)
Definition settle (p : nat) (s : pstate) (w : World) : World :=
  match lookup_settled p (settled w) with
  | Some _ => w
  | None =>
      let mine := List.filter (fun r => Nat.eqb (r_promise r) p) (reactions w) in
      let others :=
        List.filter (fun r => negb (Nat.eqb (r_promise r) p)) (reactions w) in
      with_jobs
        (fun j => j ++
           List.map (fun r => reaction_job s (r_fulfilled r) (r_rejected r)) mine)
        (with_reactions (fun _ => others)
           (with_settled (fun l => (p, s) :: l) w))
  end.

(** A producer delivers only to an observer that is still attached. *)
Definition deliver (rid : nat) (f : registration -> Prog unit) (w : World)
    : Prog unit :=
  match regs w !! rid with
  | Some r => if g_attached r then f r else skip
  | None => skip
  end.

Definition task (sub : Prog unit) (a : action) (w : World) : World * Prog unit :=
  match a with
  | Tick id =>
      match timers w !! id with
      | Some (Some (cb, _)) => (w, cb)
      | _ => (w, skip)
      end
  | Resolve p v => (settle p (Fulfilled v) w, skip)
  | Reject p e => (settle p (Rejected e) w, skip)
  | Emit rid v => (w, deliver rid (fun r => g_next r v) w)
  | Finish rid => (w, deliver rid (fun r => opt_call (g_complete r)) w)
  | Fail rid e => (w, deliver rid (fun r => opt_call1 (g_error r) e) w)
  | Unsubscribe => (w, sub)
  end.

Definition step (fuel : nat) (sub : Prog unit) (a : action) (w : World)
    : option World :=
  let '(w1, p) := task sub a w in
  match run_task fuel p w1 with
  | Some w2 => drain fuel fuel w2
  | None => None
  end.

Fixpoint play (fuel : nat) (sub : Prog unit) (script : list action) (w : World)
    : option World :=
  match script with
  | [] => Some w
  | a :: rest =>
      match step fuel sub a w with
      | Some w' => play fuel sub rest w'
      | None => None
      end
  end.

(** A whole run: the main program subscribes, starting from the empty world,
    and hands back the subscription that [Unsubscribe] invokes; then the
    script plays.  When subscribing throws there is no subscription to
    invoke. *)
Definition session (fuel : nat) (main : Prog (Prog unit)) (script : list action)
    : option World :=
  match exec fuel main empty_world with
  | Done sub w =>
      match drain fuel fuel w with
      | Some w' => play fuel sub script w'
      | None => None
      end
  | Raised e w =>
      match drain fuel fuel (with_uncaught (fun l => l ++ [e]) w) with
      | Some w' => play fuel skip script w'
      | None => None
      end
  | OutOfFuel => None
  end.

Definition heard (r : option World) : option (list call) := log <$> r.

(** ** The library (src/index.ts)

    The sources and operators of the library, in the order of the source
    file.  The [http] stub and the application wired at the end of the file
    are left out.  The counters [i], [numData] and [numCompleted] are
    JavaScript numbers that only ever hold small non-negative integers; they
    are integers here. *)

Module Rx.

Record Observer (T : Type) := mkObserver {
  next : T -> Prog unit;
  error : option (value -> Prog unit);
  complete : option (Prog unit)
}.
Arguments mkObserver {T} next error complete.
Arguments next {T} o data.
Arguments error {T} o.
Arguments complete {T} o.

Definition Subscription := Prog unit.
Definition Stream (T : Type) := Observer T -> Prog Subscription.
Definition Operator (T U : Type) := Stream T -> Stream U.

Definition periodic (millis : Z) : Stream value := fun observer =>
  i <- new_var (VNum 0);;
  id <- setInterval (v <- post_incr i;; next observer v) millis;;
  Ret (clearInterval id;; opt_call (complete observer)).

Definition subscribe {T} (obs : Observer T) (source : Stream T)
    : Prog Subscription :=
  source obs.

Definition map {T U} (f : T -> U) : Operator T U := fun source observer =>
  source {| next := fun data => next observer (f data);
            error := error observer;
            complete := complete observer |}.

Definition scan {T} (f : value -> T -> value) (initialValue : value)
    : Operator T value := fun source observer =>
  current <- new_var initialValue;;
  (c <- get_val current;; next observer c);;
  source {| next := fun data =>
              c <- get_val current;;
              set_val current (f c data);;
              c' <- get_val current;;
              next observer c';
            error := error observer;
            complete := complete observer |}.

(** [const unsubscribe = source({...})]: the binding exists, uninitialised,
    while [source] runs, and the [next] callback reads it.  (Compiled down to
    [var], the binding would hold [undefined] instead, and calling it would
    throw a TypeError where this throws a ReferenceError.) *)
Definition take {T} (n : Z) : Operator T T := fun source observer =>
  i <- new_var (VNum 0);;
  unsubscribe <- decl;;
  s <- source {| next := fun data =>
                   next observer data;;
                   post_incr i;;
                   iv <- get_val i;;
                   if strict_eq iv (VNum n) then call_fn unsubscribe else skip;
                 error := error observer;
                 complete := complete observer |};;
  set_fn unsubscribe s;;
  Ret s.

Definition merge {T} (streams : list (Stream T)) : Stream T := fun observer =>
  unsubscribes <- new_arr (length streams);;
  numCompleted <- new_var (VNum 0);;
  for_each 0%nat streams (fun i stream =>
    u <- stream {| next := next observer;
                   error := error observer;
                   complete := Some (
                     post_incr numCompleted;;
                     c <- get_val numCompleted;;
                     if strict_eq c (VNum (Z.of_nat (length streams)))
                     then opt_call (complete observer) else skip) |};;
    arr_set_fn unsubscribes i u);;
  Ret (call_all unsubscribes).

(** [addEventListener] registers the listener with the host and
    [removeEventListener] removes that registration; which events of the
    element reach the listener is the host's to say.  The listener is a
    function of the event only: the host holds no [error] or [complete]
    callback for it. *)
Definition fromEvent (eventType element : nat) : Stream value :=
  fun observer =>
  rid <- attach (fun ev => next observer ev) None None;;
  Ret (detach rid;; opt_call (complete observer)).

Definition fromPromise (promise : nat) : Stream value := fun observer =>
  then_catch promise
    (fun data => next observer data;; opt_call (complete observer))
    (fun err => opt_call1 (error observer) err);;
  Ret skip.

Definition startWith {T} (data : T) : Operator T T := fun source observer =>
  next observer data;;
  source observer.

Definition flatten {T} (outer : Stream (Stream T)) : Stream T := fun observer =>
  innerSub <- new_var VUndef;;
  outerCompleted <- new_var (VBool false);;
  unsubscribe <- decl;;
  u <- outer {| next := fun stream =>
                  call_opt innerSub;;
                  s <- stream {| next := fun data => next observer data;
                                 error := error observer;
                                 complete := Some (
                                   set_val innerSub VUndef;;
                                   oc <- get_val outerCompleted;;
                                   if truthy oc
                                   then opt_call (complete observer)
                                   else skip) |};;
                  set_fn innerSub s;
                error := error observer;
                complete := Some (set_val outerCompleted (VBool true)) |};;
  set_fn unsubscribe u;;
  Ret (call_fn unsubscribe;; call_opt innerSub).

Definition combine (streams : list (Stream value)) : Stream value :=
  fun observer =>
  marker <- new_obj;;
  values <- new_arr (length streams);;
  arr_fill values (VRef marker);;
  unsubscribes <- new_arr (length streams);;
  numData <- new_var (VNum 0);;
  numCompleted <- new_var (VNum 0);;
  for_each 0%nat streams (fun i stream =>
    u <- stream {| next := fun data =>
                     v <- arr_get values i;;
                     (if strict_eq v (VRef marker)
                      then post_incr numData;; skip else skip);;
                     arr_set values i data;;
                     nd <- get_val numData;;
                     if strict_eq nd (VNum (Z.of_nat (length streams)))
                     then next observer (VRef values) else skip;
                   error := error observer;
                   complete := Some (
                     post_incr numCompleted;;
                     c <- get_val numCompleted;;
                     if strict_eq c (VNum (Z.of_nat (length streams)))
                     then opt_call (complete observer) else skip) |};;
    arr_set_fn unsubscribes i u);;
  Ret (call_all unsubscribes).

(** [pipe], for functions of one type. *)
Definition pipe {A} (arg : A) (fns : list (A -> A)) : A :=
  fold_left (fun current f => f current) fns arg.

End Rx.

(** ** Observers and producers used to exercise the library *)

(** An observer with all three callbacks that writes down what it is told. *)
Definition recorder : Rx.Observer value :=
  {| Rx.next := fun v => tell (OnNext v);
     Rx.error := Some (fun e => tell (OnError e));
     Rx.complete := Some (tell OnComplete) |}.

Fixpoint read_from (a : loc) (idx : list nat) : Prog (list value) :=
  match idx with
  | [] => Ret []
  | i :: rest => v <- arr_get a i;; vs <- read_from a rest;; Ret (v :: vs)
  end.

(** The same for a stream of arrays: it copies the array it is handed,
    [next(t) { seen.push([...t]) }], and keeps the reference beside the
    copy. *)
Definition tuple_recorder : Rx.Observer value :=
  {| Rx.next := fun v =>
       match v with
       | VRef a => n <- arr_len a;; xs <- read_from a (seq 0 n);; tell (OnTuple a xs)
       | _ => tell (OnNext v)
       end;
     Rx.error := Some (fun e => tell (OnError e));
     Rx.complete := Some (tell OnComplete) |}.

(** A producer whose deliveries the script decides ([Emit], [Finish],
    [Fail]); like the source's own adapters it registers the observer with
    the host on subscription, and its cleanup unregisters it. *)
Definition producer : Rx.Stream value := fun observer =>
  rid <- attach (Rx.next observer) (Rx.error observer) (Rx.complete observer);;
  Ret (detach rid).

(** [n] such producers: the [i]th is the [i]th registration. *)
Definition producers (n : nat) : list (Rx.Stream value) := replicate n producer.

(** The same with a cleanup that does nothing, as [fromPromise] has. *)
Definition deaf_producer : Rx.Stream value := fun observer =>
  attach (Rx.next observer) (Rx.error observer) (Rx.complete observer);;
  Ret skip.

(** A producer that delivers [xs] during the subscribe call itself. *)
Definition emit_now (xs : list value) : Rx.Stream value := fun observer =>
  for_each 0%nat xs (fun _ x => Rx.next observer x);;
  Ret skip.

Definition plus (a b : value) : value := VNum (num a + num b).
Definition nums (l : list Z) : list call := List.map (fun z => OnNext (VNum z)) l.

(** * Properties *)

(** ** Running programs *)

Definition andThen {A B : Type} (o : Outcome A) (f : A -> World -> Outcome B)
    : Outcome B :=
  match o with
  | Done a w => f a w
  | Raised e w => Raised e w
  | OutOfFuel => OutOfFuel
  end.

Lemma run_bind c {A B : Type} (p : Prog A) (f : A -> Prog B) w :
  run c (bind p f) w = andThen (run c p w) (fun a w' => run c (f a) w').
Proof.
  revert w. induction p; intros w; cbn [bind run andThen]; auto.
  - destruct (vars w !! x) as [[|v|g]|]; cbn; auto.
  - destruct (vars w !! x) as [[|v|g]|]; cbn; auto.
    destruct (c g w) as [[] w1| |]; cbn; auto.
  - destruct (vars w !! x) as [[|[]|g]|]; cbn; auto.
    destruct (c g w) as [[] w1| |]; cbn; auto.
  - destruct (elems_of w a !! i) as [[|v|g]|]; cbn; auto.
    destruct (c g w) as [[] w1| |]; cbn; auto.
  - destruct (lookup_settled promise (settled w)); auto.
Qed.

Lemma exec_bind fuel {A B : Type} (p : Prog A) (f : A -> Prog B) w :
  exec fuel (bind p f) w = andThen (exec fuel p w) (fun a w' => exec fuel (f a) w').
Proof. apply run_bind. Qed.

Definition values_sent (xs : list value) : list action := List.map (Emit 0%nat) xs.

(** How often the observer was told [complete]. *)
Definition completions (l : list call) : nat :=
  length (List.filter (fun c => match c with OnComplete => true | _ => false end) l).

(** How often a script invokes the subscription. *)
Definition cancellations (script : list action) : nat :=
  length (List.filter (fun a => match a with Unsubscribe => true | _ => false end)
            script).

(** [c; c+1; ...], [k] numbers. *)
Fixpoint count_from (c : Z) (k : nat) : list Z :=
  match k with
  | O => []
  | S k' => c :: count_from (c + 1) k'
  end.

Lemma play_app fuel sub s1 s2 w :
  play fuel sub (s1 ++ s2) w =
    match play fuel sub s1 w with
    | Some w' => play fuel sub s2 w'
    | None => None
    end.
Proof.
  revert w. induction s1 as [|a s1 IH]; intros w; cbn [play app]; auto.
  destruct (step fuel sub a w); auto.
Qed.

(** ** periodic *)

Section Periodic.
Variables (fuel : nat) (millis : Z).

Definition periodic_tick : Prog unit :=
  v <- post_incr 0%nat;; Rx.next recorder v.

Definition periodic_cleanup : Prog unit :=
  clearInterval 0%nat;; opt_call (Rx.complete recorder).

(** The world of a subscribed timer: the counter [i], the timer
    registration (gone once cleared) and what the observer heard. *)
Definition periodic_world (running : bool) (c : Z) (st : list (nat * pstate))
    (lg : list call) : World :=
  mkWorld [Val (VNum c)] []
    [if running then Some (periodic_tick, millis) else None]
    st [] [] [] lg [].

Lemma periodic_start :
  exec fuel (Rx.periodic millis recorder) empty_world =
    Done periodic_cleanup (periodic_world true 0 [] []).
Proof. reflexivity. Qed.

Lemma periodic_tick_running c st lg :
  step fuel periodic_cleanup (Tick 0%nat) (periodic_world true c st lg) =
    Some (periodic_world true (c + 1) st (lg ++ [OnNext (VNum c)])).
Proof. reflexivity. Qed.

Lemma periodic_ticks k : forall c st lg,
  play fuel periodic_cleanup (repeat (Tick 0%nat) k) (periodic_world true c st lg) =
    Some (periodic_world true (c + Z.of_nat k) st (lg ++ nums (count_from c k))).
Proof.
  induction k as [|k IH]; intros c st lg.
  - cbn. rewrite Z.add_0_r, app_nil_r. reflexivity.
  - cbn [repeat play]. rewrite periodic_tick_running, IH.
    cbn [count_from nums List.map]. rewrite <- app_assoc. cbn [app].
    do 2 f_equal. lia.
Qed.

Lemma periodic_cancel running c st lg :
  step fuel periodic_cleanup Unsubscribe (periodic_world running c st lg) =
    Some (periodic_world false c st (lg ++ [OnComplete])).
Proof. destruct running; reflexivity. Qed.

(** Once the timer is cleared nothing is emitted any more; only a further
    invocation of the cleanup is heard, as one more [complete]. *)
Lemma periodic_cleared_step a c st lg :
  exists st',
    step fuel periodic_cleanup a (periodic_world false c st lg) =
      Some (periodic_world false c st'
              (lg ++ repeat OnComplete (cancellations [a]))).
Proof.
  destruct a as [id|p v|p e|rid v|rid|rid e|].
  - exists st. destruct id as [|[|id]]; cbn; rewrite app_nil_r; reflexivity.
  - unfold step, task, settle.
    destruct (lookup_settled p st) eqn:E; cbn; rewrite E; cbn;
      rewrite app_nil_r; eauto.
  - unfold step, task, settle.
    destruct (lookup_settled p st) eqn:E; cbn; rewrite E; cbn;
      rewrite app_nil_r; eauto.
  - exists st. cbn. rewrite app_nil_r. destruct rid; reflexivity.
  - exists st. cbn. rewrite app_nil_r. destruct rid; reflexivity.
  - exists st. cbn. rewrite app_nil_r. destruct rid; reflexivity.
  - exists st. apply periodic_cancel.
Qed.

Lemma periodic_cleared_play script : forall c st lg,
  exists st',
    play fuel periodic_cleanup script (periodic_world false c st lg) =
      Some (periodic_world false c st'
              (lg ++ repeat OnComplete (cancellations script))).
Proof.
  induction script as [|a script IH]; intros c st lg.
  - exists st. cbn. rewrite app_nil_r. reflexivity.
  - destruct (periodic_cleared_step a c st lg) as [st1 H1].
    cbn [play]. rewrite H1.
    destruct (IH c st1 (lg ++ repeat OnComplete (cancellations [a])))
      as [st2 H2].
    exists st2. rewrite H2. do 2 f_equal. rewrite <- app_assoc. f_equal.
    rewrite <- repeat_app. f_equal.
    unfold cancellations. destruct a; reflexivity.
Qed.
End Periodic.

(** C8, as the code has it: for every interval the timer source emits
    0, 1, 2, ... in order, one number per tick; it never calls [error] and
    never calls [complete] by itself; each invocation of the returned
    subscription calls [complete] once, at once, so a second invocation calls
    it a second time; after the first invocation no tick emits anything. *)
Theorem periodic_counts_and_completes_per_cancellation :
  forall (fuel : nat) (millis : Z) (k : nat) (rest : list action),
    heard (session fuel (Rx.periodic millis recorder) (repeat (Tick 0%nat) k)) =
      Some (nums (count_from 0 k))
    /\ heard (session fuel (Rx.periodic millis recorder)
                (repeat (Tick 0%nat) k ++ Unsubscribe :: rest)) =
         Some (nums (count_from 0 k) ++
               repeat OnComplete (S (cancellations rest))).
Proof.
  intros fuel millis k rest. unfold session.
  rewrite periodic_start. cbn [drain periodic_world jobs].
  fold (periodic_world millis true 0 [] []). split.
  - rewrite periodic_ticks. reflexivity.
  - rewrite play_app, periodic_ticks. cbn [play].
    rewrite periodic_cancel.
    destruct (periodic_cleared_play fuel millis rest (0 + Z.of_nat k) []
                (([] ++ nums (count_from 0 k)) ++ [OnComplete])) as [st' H].
    rewrite H. cbn [heard fmap option_fmap option_map periodic_world log app].
    rewrite <- app_assoc. reflexivity.
Qed.

(** C8 as stated fails: the cleanup has no guard, and invoking it twice
    tells the observer [complete] twice. *)
Lemma periodic_second_cancel_completes_again :
  heard (session 0 (Rx.periodic 1000 recorder)
           [Tick 0%nat; Unsubscribe; Unsubscribe]) =
    Some [OnNext (VNum 0); OnComplete; OnComplete]
  /\ completions [OnNext (VNum 0); OnComplete; OnComplete] <> 1%nat.
Proof. split; [reflexivity | discriminate]. Qed.

(** ** scan *)

(** The running accumulator: [f acc x] after each [x]. *)
Fixpoint accumulate (f : value -> value -> value) (acc : value)
    (xs : list value) : list value :=
  match xs with
  | [] => []
  | x :: rest => f acc x :: accumulate f (f acc x) rest
  end.

Section Scan.
Variables (fuel : nat) (f : value -> value -> value).

Definition scan_next : value -> Prog unit :=
  fun data =>
    c <- get_val 0%nat;;
    set_val 0%nat (f c data);;
    c' <- get_val 0%nat;;
    Rx.next recorder c'.

Definition scan_world (current : value) (lg : list call) : World :=
  mkWorld [Val current] [] [] [] [] []
    [Registration scan_next (Rx.error recorder) (Rx.complete recorder) true]
    lg [].

Lemma scan_start seed :
  exec fuel (Rx.scan f seed producer recorder) empty_world =
    Done (detach 0%nat) (scan_world seed [OnNext seed]).
Proof. reflexivity. Qed.

Lemma scan_step current lg x :
  step fuel (detach 0%nat) (Emit 0%nat x) (scan_world current lg) =
    Some (scan_world (f current x) (lg ++ [OnNext (f current x)])).
Proof. reflexivity. Qed.

Lemma scan_steps xs : forall current lg,
  play fuel (detach 0%nat) (values_sent xs) (scan_world current lg) =
    Some (scan_world (fold_left f xs current)
            (lg ++ List.map OnNext (accumulate f current xs))).
Proof.
  induction xs as [|x xs IH]; intros current lg.
  - cbn. rewrite app_nil_r. reflexivity.
  - cbn [values_sent List.map play]. rewrite scan_step.
    fold (values_sent xs). rewrite IH.
    cbn [accumulate List.map fold_left]. rewrite <- app_assoc. reflexivity.
Qed.

Lemma scan_heard seed xs :
  heard (session fuel (Rx.scan f seed producer recorder) (values_sent xs)) =
    Some (List.map OnNext (seed :: accumulate f seed xs)).
Proof.
  unfold session. rewrite scan_start. cbn [drain scan_world jobs].
  fold (scan_world seed [OnNext seed]). rewrite scan_steps. reflexivity.
Qed.
End Scan.

(** C7: [scan((a, b) => a + b, 0)] over an upstream that delivers 1, 2, 3
    tells the observer exactly 0, 1, 3, 6.  The seed is told during the
    subscribe call, before the upstream is subscribed and so before any of
    its values, whether those arrive later or during the upstream's own
    subscribe call; every upstream value is then answered by the updated
    accumulator, for any [f], seed and values. *)
Theorem scan_seed_then_running_sums :
  forall fuel : nat,
    heard (session fuel (Rx.scan plus (VNum 0) producer recorder) []) =
      Some (nums [0])
    /\ heard (session fuel (Rx.scan plus (VNum 0) producer recorder)
                (values_sent [VNum 1; VNum 2; VNum 3])) =
         Some (nums [0; 1; 3; 6])
    /\ heard (session fuel
                (Rx.scan plus (VNum 0) (emit_now [VNum 1; VNum 2; VNum 3])
                   recorder) []) =
         Some (nums [0; 1; 3; 6])
    /\ forall f seed xs,
         heard (session fuel (Rx.scan f seed producer recorder) (values_sent xs)) =
           Some (List.map OnNext (seed :: accumulate f seed xs)).
Proof.
  intros fuel. split; [|split; [|split]].
  - apply (scan_heard fuel plus (VNum 0) []).
  - apply (scan_heard fuel plus (VNum 0) [VNum 1; VNum 2; VNum 3]).
  - reflexivity.
  - intros f seed xs. apply scan_heard.
Qed.

(** ** take *)

(** Whether the observers registered with the producers are still attached. *)
Definition attached (r : option World) : option (list bool) :=
  (fun w => List.map g_attached (regs w)) <$> r.

(** [startWith] applied once per value: the values are delivered during the
    subscribe call, in order, before [src] is subscribed. *)
Definition prepend (xs : list value) (src : Rx.Stream value) : Rx.Stream value :=
  fold_right (fun x s => Rx.startWith x s) src xs.

Section Take.
Variables (fuel : nat) (n : Z).

(** The [next] callback [take] hands upstream: [i] is variable 0 and
    [unsubscribe] is variable 1. *)
Definition take_next : value -> Prog unit :=
  fun data =>
    Rx.next recorder data;;
    post_incr 0%nat;;
    iv <- get_val 0%nat;;
    if strict_eq iv (VNum n) then call_fn 1%nat else skip.

Definition take_observer : Rx.Observer value :=
  {| Rx.next := take_next;
     Rx.error := Rx.error recorder;
     Rx.complete := Rx.complete recorder |}.

(** After [take n producer] has been subscribed. *)
Definition take_world (c : Z) (on : bool) (lg : list call) : World :=
  mkWorld [Val (VNum c); Fn (detach 0%nat)] [] [] [] [] []
    [Registration take_next (Rx.error recorder) (Rx.complete recorder) on]
    lg [].

(** While the upstream's subscribe call is still running. *)
Definition take_pending (c : Z) (lg : list call) : World :=
  mkWorld [Val (VNum c); Blank] [] [] [] [] [] [] lg [].

Lemma take_start :
  exec fuel (Rx.take n producer recorder) empty_world =
    Done (detach 0%nat) (take_world 0 true []).
Proof. reflexivity. Qed.

Lemma take_step_forward c lg v :
  c + 1 <> n ->
  step fuel (detach 0%nat) (Emit 0%nat v) (take_world c true lg) =
    Some (take_world (c + 1) true (lg ++ [OnNext v])).
Proof.
  intros Hc. unfold step, task, deliver, run_task, exec.
  cbn -[Z.add Z.eqb].
  replace (c + 1 =? n) with false by lia.
  reflexivity.
Qed.

Lemma take_step_detached c lg v :
  step fuel (detach 0%nat) (Emit 0%nat v) (take_world c false lg) =
    Some (take_world c false lg).
Proof. reflexivity. Qed.

Lemma take_steps_detached xs : forall c lg,
  play fuel (detach 0%nat) (values_sent xs) (take_world c false lg) =
    Some (take_world c false lg).
Proof.
  induction xs as [|x xs IH]; intros c lg; [reflexivity|].
  cbn [values_sent List.map play]. rewrite take_step_detached. apply IH.
Qed.

(** A value delivered during the upstream's subscribe call: forwarded, and
    at the [n]th the uninitialised [unsubscribe] is called. *)
Lemma take_next_pending_forward c lg v :
  c + 1 <> n ->
  exec fuel (take_next v) (take_pending c lg) =
    Done tt (take_pending (c + 1) (lg ++ [OnNext v])).
Proof.
  intros Hc. unfold exec. cbn -[Z.add Z.eqb].
  replace (c + 1 =? n) with false by lia.
  reflexivity.
Qed.

Lemma take_next_pending_last c lg v :
  c + 1 = n ->
  exec fuel (take_next v) (take_pending c lg) =
    Raised (VErr ReferenceError) (take_pending (c + 1) (lg ++ [OnNext v])).
Proof.
  intros Hc. unfold exec. cbn -[Z.add Z.eqb].
  replace (c + 1 =? n) with true by lia.
  reflexivity.
Qed.

Lemma prepend_faults src xs : forall c lg,
  0 <= c < n ->
  n - c <= Z.of_nat (length xs) ->
  exec fuel (prepend xs src take_observer) (take_pending c lg) =
    Raised (VErr ReferenceError)
      (take_pending n (lg ++ List.map OnNext (firstn (Z.to_nat (n - c)) xs))).
Proof.
  induction xs as [|x xs IH]; intros c lg Hc Hlen.
  - cbn [length] in Hlen. lia.
  - cbn [prepend fold_right]. fold (prepend xs src).
    unfold Rx.startWith. rewrite exec_bind.
    change (Rx.next take_observer x) with (take_next x).
    replace (Z.to_nat (n - c)) with (S (Z.to_nat (n - (c + 1)))) by lia.
    cbn [firstn List.map].
    destruct (Z.eq_dec (c + 1) n) as [E|E].
    + rewrite take_next_pending_last by exact E. cbn [andThen].
      replace (n - (c + 1)) with 0 by lia. cbn [Z.to_nat firstn List.map].
      rewrite E. reflexivity.
    + rewrite take_next_pending_forward by exact E. cbn [andThen].
      rewrite IH.
      * rewrite <- app_assoc. reflexivity.
      * lia.
      * rewrite length_cons in Hlen. lia.
Qed.
End Take.

Section TakeProducer.
Variables (fuel : nat) (n : Z).
Hypothesis n_positive : 1 <= n.

Lemma take_step_last c lg v :
  c + 1 = n ->
  step (S fuel) (detach 0%nat) (Emit 0%nat v) (take_world n c true lg) =
    Some (take_world n (c + 1) false (lg ++ [OnNext v])).
Proof using Type.
  intros Hc. unfold step, task, deliver, run_task, exec.
  cbn -[Z.add Z.eqb].
  replace (c + 1 =? n) with true by lia.
  reflexivity.
Qed.

Lemma take_steps xs : forall c lg,
  0 <= c < n ->
  heard (play (S fuel) (detach 0%nat) (values_sent xs) (take_world n c true lg)) =
    Some (lg ++ List.map OnNext (firstn (Z.to_nat (n - c)) xs)).
Proof using Type.
  induction xs as [|x xs IH]; intros c lg Hc.
  - cbn. rewrite firstn_nil, app_nil_r. reflexivity.
  - cbn [values_sent List.map play]. fold (values_sent xs).
    replace (Z.to_nat (n - c)) with (S (Z.to_nat (n - (c + 1)))) by lia.
    cbn [firstn List.map].
    destruct (Z.eq_dec (c + 1) n) as [E|E].
    + rewrite take_step_last by exact E.
      rewrite take_steps_detached.
      replace (n - (c + 1)) with 0 by lia. reflexivity.
    + rewrite take_step_forward by exact E.
      rewrite IH by lia. rewrite <- app_assoc. reflexivity.
Qed.

(** For [n >= 1], [take n] over a producer that honours its cleanup
    forwards the first [n] values and nothing else. *)
Lemma take_forwards_first_n xs :
  heard (session (S fuel) (Rx.take n producer recorder) (values_sent xs)) =
    Some (List.map OnNext (firstn (Z.to_nat n) xs)).
Proof using n_positive.
  unfold session. rewrite take_start. cbn [drain take_world jobs].
  fold (take_world n 0 true []). rewrite take_steps by lia.
  rewrite Z.sub_0_r. reflexivity.
Qed.
End TakeProducer.

(** [take] declares its two variables and then runs the upstream's subscribe
    call with [unsubscribe] still uninitialised. *)
Lemma take_subscribes fuel n (source : Rx.Stream value) :
  exec fuel (Rx.take n source recorder) empty_world =
    andThen (exec fuel (source (take_observer n)) (take_pending 0 []))
      (fun s w => exec fuel (set_fn 1%nat s;; Ret s) w).
Proof.
  unfold Rx.take, exec. cbn -[Z.add Z.eqb]. rewrite run_bind. reflexivity.
Qed.

(** C4, as the code has it: over a producer that delivers 1, 2, 3, 4 after
    the subscribe call has returned and that stops delivering once its
    cleanup has been invoked, [take(2)] forwards exactly 1, 2, in order.
    The upstream's cleanup is invoked at the second value and not before:
    the producer's observer is attached after the first value and detached
    after the second, so the producer's later values reach nobody.  Over the
    library's own timer source, which would count on for ever, the cleanup
    invoked at the second value clears the timer (and completes the
    observer), and later ticks deliver nothing.  The stopping is the
    upstream's doing in both cases: [take] only invokes the cleanup. *)
Theorem take_two_of_four :
  forall fuel : nat,
    let four := values_sent [VNum 1; VNum 2; VNum 3; VNum 4] in
    let taken := Rx.take 2 producer recorder in
    heard (session (S fuel) taken four) = Some (nums [1; 2])
    /\ attached (session (S fuel) taken (firstn 1 four)) = Some [true]
    /\ attached (session (S fuel) taken (firstn 2 four)) = Some [false]
    /\ heard (session (S fuel)
                (Rx.take 2
                   (Rx.map (fun v => VNum (num v + 1)) (Rx.periodic 1000))
                   recorder)
                (repeat (Tick 0%nat) 4)) =
         Some (nums [1; 2] ++ [OnComplete]).
Proof. intros fuel. cbv zeta. repeat split; vm_compute; reflexivity. Qed.

(** C4 as stated fails: [take] keeps no guard of its own, it forwards
    whatever it is handed.  Over a producer that delivers 1, 2, 3, 4 and
    goes on delivering after its cleanup has been invoked (at the second
    value), all four values are forwarded.  The library has such producers:
    the cleanup of [fromPromise] does nothing, so [take(2)] over the merge
    of four promises fulfilled with 1, 2, 3, 4 forwards all four, and the
    [complete] of the merge after them. *)
Lemma take_two_forwards_all_four :
  let promised :=
    Rx.merge [Rx.fromPromise 0; Rx.fromPromise 1; Rx.fromPromise 2;
              Rx.fromPromise 3] in
  heard (session 1 (Rx.take 2 deaf_producer recorder)
           (values_sent [VNum 1; VNum 2; VNum 3; VNum 4])) =
    Some (nums [1; 2; 3; 4])
  /\ heard (session 2 (Rx.take 2 promised recorder)
              [Resolve 0 (VNum 1); Resolve 1 (VNum 2); Resolve 2 (VNum 3);
               Resolve 3 (VNum 4)]) =
       Some (nums [1; 2; 3; 4] ++ [OnComplete])
  /\ nums [1; 2; 3; 4] <> nums [1; 2].
Proof. cbv zeta. split; [|split]; [reflexivity..|discriminate]. Qed.

(** The same whatever the bound on the depth of calls. *)
Lemma take_relies_on_upstream_cleanup fuel :
  heard (session (S fuel) (Rx.take 2 deaf_producer recorder)
           (values_sent [VNum 1; VNum 2; VNum 3; VNum 4])) =
    Some (nums [1; 2; 3; 4]).
Proof. vm_compute. reflexivity. Qed.

(** C5 fails on the code: for every [n >= 1], when the upstream delivers [n]
    values during its subscribe call (here [startWith] applied [n] or more
    times, over any source), subscribing [take n] throws.  The first [n]
    values are forwarded, and at the [n]th the callback calls [unsubscribe],
    which is still uninitialised: a ReferenceError.  The rest of the
    upstream is never subscribed. *)
Theorem take_faults_on_synchronous_upstream :
  forall (fuel : nat) (n : Z) (xs : list value) (src : Rx.Stream value),
    1 <= n ->
    n <= Z.of_nat (length xs) ->
    exists w,
      exec fuel (Rx.take n (prepend xs src) recorder) empty_world =
        Raised (VErr ReferenceError) w
      /\ log w = List.map OnNext (firstn (Z.to_nat n) xs)
      /\ vars w !! 1%nat = Some Blank.
Proof.
  intros fuel n xs src Hn Hlen.
  exists (take_pending n ([] ++ List.map OnNext (firstn (Z.to_nat (n - 0)) xs))).
  rewrite take_subscribes, prepend_faults by lia.
  rewrite Z.sub_0_r. repeat split.
Qed.

Lemma take_faults_on_synchronous_upstream_witness :
  exists w,
    exec 0 (Rx.take 1 (prepend [VNum 7] (Rx.periodic 1000)) recorder) empty_world =
      Raised (VErr ReferenceError) w
    /\ log w = List.map OnNext (firstn (Z.to_nat 1) [VNum 7])
    /\ vars w !! 1%nat = Some Blank.
Proof.
  apply (take_faults_on_synchronous_upstream 0 1 [VNum 7] (Rx.periodic 1000));
    cbn; lia.
Defined.

(** C6 fails on the code: the counter is compared with [n] only after it has
    been incremented, so with [n = 0] the comparison never succeeds.
    [take(0)] forwards every value of the upstream and never invokes the
    upstream's cleanup: the observer is still attached after subscription
    and after any number of values. *)
Theorem take_zero_forwards_everything :
  forall (fuel : nat) (xs : list value),
    heard (session fuel (Rx.take 0 producer recorder) (values_sent xs)) =
      Some (List.map OnNext xs)
    /\ attached (session fuel (Rx.take 0 producer recorder) (values_sent xs)) =
         Some [true].
Proof.
  intros fuel xs. unfold session. rewrite take_start.
  cbn [drain take_world jobs]. fold (take_world 0 0 true []).
  assert (H : forall ys c lg, 0 <= c ->
    play fuel (detach 0%nat) (values_sent ys) (take_world 0 c true lg) =
      Some (take_world 0 (c + Z.of_nat (length ys)) true
              (lg ++ List.map OnNext ys))).
  { induction ys as [|y ys IH]; intros c lg Hc.
    - cbn. rewrite Z.add_0_r, app_nil_r. reflexivity.
    - cbn [values_sent List.map play]. fold (values_sent ys).
      rewrite take_step_forward by lia. rewrite IH by lia.
      rewrite <- app_assoc, length_cons. do 2 f_equal. lia. }
  rewrite H by lia. split; reflexivity.
Qed.

(** What a producer does to its observer. *)
Inductive delivery :=
| Value (v : value)
| Completion
| Failure (e : value).

(** Producer [i] is the [i]th stream handed to [combine] and the [i]th
    registration. *)
Definition to_action (d : nat * delivery) : action :=
  match d with
  | (i, Value v) => Emit i v
  | (i, Completion) => Finish i
  | (i, Failure e) => Fail i e
  end.

Lemma length_producers n : length (producers n) = n.
Proof. apply length_replicate. Qed.

(** ** merge *)

(** The scripts in which the deliveries of two producers can arrive: each
    producer's own order is kept. *)
Inductive Interleave {X : Type} : list X -> list X -> list X -> Prop :=
| interleave_nil : Interleave [] [] []
| interleave_left x xs ys zs :
    Interleave xs ys zs -> Interleave (x :: xs) ys (x :: zs)
| interleave_right y xs ys zs :
    Interleave xs ys zs -> Interleave xs (y :: ys) (y :: zs).

(** The values of a script, in the order of arrival. *)
Definition arrivals (script : list action) : list call :=
  flat_map (fun a => match a with Emit _ v => [OnNext v] | _ => [] end) script.

(** Whether producer [rid] has completed within the script. *)
Definition finished (rid : nat) (script : list action) : bool :=
  existsb (fun a => match a with Finish r => Nat.eqb r rid | _ => false end)
    script.

(** A emits two values and completes; B emits one value and completes.  A is
    the first producer subscribed (registration 0), B the second. *)
Definition stream_A (a1 a2 : value) : list action :=
  [Emit 0%nat a1; Emit 0%nat a2; Finish 0%nat].
Definition stream_B (b : value) : list action :=
  [Emit 1%nat b; Finish 1%nat].

Ltac interleavings :=
  repeat match goal with
         | H : Interleave _ _ _ |- _ => inversion H; clear H; subst
         end.

(** C3: for [merge(A, B)], whatever the order in which the deliveries of A
    and B arrive, and at every moment of the run (after any number [k] of
    deliveries): the observer has been told exactly the values delivered so
    far, in the order of arrival, followed by one [complete] if and only if
    both A and B have completed.  At the end of the run that is the three
    values and then a single [complete]. *)
Theorem merge_two_producers :
  forall (fuel : nat) (a1 a2 b : value) (script : list action) (k : nat),
    Interleave (stream_A a1 a2) (stream_B b) script ->
    let so_far := firstn k script in
    heard (session fuel (Rx.merge [producer; producer] recorder) so_far) =
      Some (arrivals so_far ++
            (if finished 0 so_far && finished 1 so_far then [OnComplete] else []))
    /\ length (arrivals script) = 3%nat
    /\ heard (session fuel (Rx.merge [producer; producer] recorder) script) =
         Some (arrivals script ++ [OnComplete]).
Proof.
  intros fuel a1 a2 b script k H. unfold stream_A, stream_B in H.
  interleavings;
    (split; [|split; reflexivity]);
    do 6 (try destruct k as [|k]); reflexivity.
Qed.

Lemma merge_two_producers_witness :
  let script := [Emit 0%nat (VNum 1); Emit 1%nat (VNum 7); Emit 0%nat (VNum 2);
                 Finish 0%nat; Finish 1%nat] in
  let so_far := firstn 4 script in
  heard (session 0 (Rx.merge [producer; producer] recorder) so_far) =
    Some (arrivals so_far ++
          (if finished 0 so_far && finished 1 so_far then [OnComplete] else []))
  /\ length (arrivals script) = 3%nat
  /\ heard (session 0 (Rx.merge [producer; producer] recorder) script) =
       Some (arrivals script ++ [OnComplete]).
Proof.
  apply (merge_two_producers 0 (VNum 1) (VNum 2) (VNum 7)).
  unfold stream_A, stream_B.
  apply interleave_left, interleave_right, interleave_left, interleave_left,
    interleave_right, interleave_nil.
Defined.

(** *** Any number of inputs

    What the specification says of [merge]: every value of every input is
    forwarded as it arrives, and [complete] is told when the count of
    completions reaches the number of inputs. *)
Fixpoint merge_model (n completed : nat) (script : list (nat * delivery))
    : list call :=
  match script with
  | [] => []
  | (i, d) :: rest =>
      if (i <? n)%nat then
        match d with
        | Value v => OnNext v :: merge_model n completed rest
        | Failure e => OnError e :: merge_model n completed rest
        | Completion =>
            (if (S completed =? n)%nat then [OnComplete] else []) ++
            merge_model n (S completed) rest
        end
      else merge_model n completed rest
  end.

Section Merge.
Variables (fuel n : nat).

(** In the world of a subscribed [merge], [unsubscribes] is heap object 0
    and [numCompleted] is variable 0. *)
Definition merge_complete : Prog unit :=
  post_incr 0%nat;;
  c <- get_val 0%nat;;
  if strict_eq c (VNum (Z.of_nat (length (producers n))))
  then opt_call (Rx.complete recorder) else skip.

Definition merge_observer : Rx.Observer value :=
  {| Rx.next := Rx.next recorder;
     Rx.error := Rx.error recorder;
     Rx.complete := Some merge_complete |}.

Definition merge_body (i : nat) (stream : Rx.Stream value) : Prog unit :=
  u <- stream merge_observer;; arr_set_fn 0%nat i u.

Definition merge_reg : registration :=
  Registration (Rx.next recorder) (Rx.error recorder) (Some merge_complete) true.

Definition merge_world (completed : nat) (unsubs : list slot)
    (rg : list registration) (lg : list call) : World :=
  mkWorld [Val (VNum (Z.of_nat completed))] [HArr unsubs] [] [] [] [] rg lg [].

Lemma merge_subscribes :
  exec fuel (Rx.merge (producers n) recorder) empty_world =
    andThen
      (exec fuel (for_each 0%nat (producers n) merge_body)
         (merge_world 0 (replicate n Blank) [] []))
      (fun _ w => Done (call_all 0%nat) w).
Proof.
  unfold Rx.merge, exec. cbn -[producers]. rewrite run_bind.
  match goal with
  | |- andThen (run _ _ ?w) _ = _ =>
      replace w with (merge_world 0 (replicate n Blank) [] [])
  end; [reflexivity|].
  unfold merge_world. cbn. rewrite length_producers. reflexivity.
Qed.

Lemma merge_loop completed lg m : forall i unsubs rg,
  exists unsubs',
    exec fuel (for_each i (replicate m producer) merge_body)
      (merge_world completed unsubs rg lg) =
    Done tt (merge_world completed unsubs' (rg ++ replicate m merge_reg) lg).
Proof.
  induction m as [|m IH]; intros i unsubs rg.
  - exists unsubs. cbn. rewrite app_nil_r. reflexivity.
  - destruct (IH (S i) (arr_write unsubs i (Fn (detach (length rg))))
                (rg ++ [merge_reg])) as [unsubs' H].
    exists unsubs'. cbn [replicate for_each]. rewrite exec_bind.
    unfold exec in *. cbn -[Z.of_nat].
    rewrite <- app_assoc in H. exact H.
Qed.

Lemma merge_start :
  exists unsubs,
    exec fuel (Rx.merge (producers n) recorder) empty_world =
      Done (call_all 0%nat) (merge_world 0 unsubs (replicate n merge_reg) []).
Proof.
  destruct (merge_loop 0 [] n 0%nat (replicate n Blank) []) as [unsubs H].
  exists unsubs. rewrite merge_subscribes. unfold producers. rewrite H.
  reflexivity.
Qed.

Lemma merge_step d completed unsubs lg :
  exists completed' lg',
    step fuel (call_all 0%nat) (to_action d)
      (merge_world completed unsubs (replicate n merge_reg) lg) =
      Some (merge_world completed' unsubs (replicate n merge_reg) lg')
    /\ forall rest,
         lg' ++ merge_model n completed' rest =
           lg ++ merge_model n completed (d :: rest).
Proof.
  destruct d as [i d]. unfold step, task, to_action, deliver, run_task.
  cbn [merge_model].
  destruct (Nat.lt_ge_cases i n) as [Hi|Hi].
  - assert (Hreg : regs (merge_world completed unsubs (replicate n merge_reg) lg)
                     !! i = Some merge_reg).
    { cbn [regs merge_world]. apply lookup_replicate_2. exact Hi. }
    replace (i <? n)%nat with true by (symmetry; apply Nat.ltb_lt; exact Hi).
    destruct d as [v| |e]; rewrite Hreg;
      cbn [g_attached g_next g_complete g_error merge_reg opt_call opt_call1].
    + exists completed. eexists. split; [reflexivity|].
      intros rest. cbn [with_log log]. rewrite <- app_assoc. reflexivity.
    + exists (S completed).
      unfold exec, merge_complete.
      cbn -[Z.of_nat Z.eqb Z.add Nat.eqb producers merge_model].
      rewrite length_producers.
      replace (Z.of_nat completed + 1) with (Z.of_nat (S completed)) by lia.
      destruct (Nat.eqb_spec (S completed) n) as [E|E].
      * rewrite (proj2 (Z.eqb_eq _ _)) by lia.
        eexists. split; [reflexivity|].
        intros rest. cbn [with_log log]. rewrite <- app_assoc. reflexivity.
      * rewrite (proj2 (Z.eqb_neq _ _)) by lia.
        eexists. split; [reflexivity|]. reflexivity.
    + exists completed. eexists. split; [reflexivity|].
      intros rest. cbn [with_log log]. rewrite <- app_assoc. reflexivity.
  - assert (Hreg : regs (merge_world completed unsubs (replicate n merge_reg) lg)
                     !! i = None).
    { cbn [regs merge_world]. apply lookup_replicate_None. exact Hi. }
    replace (i <? n)%nat with false by (symmetry; apply Nat.ltb_ge; exact Hi).
    exists completed, lg. destruct d; rewrite Hreg; split; reflexivity.
Qed.

Lemma merge_play script : forall completed unsubs lg,
  heard (play fuel (call_all 0%nat) (to_action <$> script)
           (merge_world completed unsubs (replicate n merge_reg) lg)) =
    Some (lg ++ merge_model n completed script).
Proof.
  induction script as [|d script IH]; intros completed unsubs lg.
  - cbn. rewrite app_nil_r. reflexivity.
  - destruct (merge_step d completed unsubs lg) as (completed' & lg' & Hstep & Hl).
    cbn [fmap list_fmap play].
    change (list_fmap _ _ to_action script) with (to_action <$> script).
    rewrite Hstep, IH, Hl. reflexivity.
Qed.
End Merge.

(** [merge] over any number of inputs and any sequence of deliveries:
    values pass through in the order of arrival, and [complete] is told when
    the count of completions reaches the number of inputs. *)
Lemma merge_counts_completions fuel n script :
  heard (session fuel (Rx.merge (producers n) recorder) (to_action <$> script)) =
    Some (merge_model n 0 script).
Proof.
  destruct (merge_start fuel n) as [unsubs Hstart].
  unfold Rx.Subscription in Hstart. unfold session. rewrite Hstart.
  match goal with
  | |- context [drain fuel fuel ?w0] =>
      change (drain fuel fuel w0) with (Some w0)
  end.
  cbv beta iota. apply merge_play.
Qed.

(** ** fromPromise *)

(** A world in which the host holds no callback at all. *)
Definition quiet (w : World) : Prop :=
  timers w = [] /\ reactions w = [] /\ jobs w = [] /\ regs w = [].

Lemma quiet_step fuel a w :
  quiet w ->
  exists w', step fuel skip a w = Some w' /\ quiet w' /\ log w' = log w.
Proof.
  destruct w as [vs hp tm st rs js rg lg un].
  intros (Ht & Hr & Hj & Hg). cbn in Ht, Hr, Hj, Hg. subst.
  destruct a as [id|p v|p e|rid v|rid|rid e|];
    try (eexists; split; [reflexivity | split; [repeat split | reflexivity]]).
  - unfold step, task, settle. cbn. destruct (lookup_settled p st);
      eexists; (split; [reflexivity | split; [repeat split | reflexivity]]).
  - unfold step, task, settle. cbn. destruct (lookup_settled p st);
      eexists; (split; [reflexivity | split; [repeat split | reflexivity]]).
Qed.

Lemma quiet_play fuel script : forall w,
  quiet w ->
  exists w', play fuel skip script w = Some w' /\ quiet w' /\ log w' = log w.
Proof.
  induction script as [|a script IH]; intros w Hq.
  - exists w. repeat split; try apply Hq.
  - destruct (quiet_step fuel a w Hq) as (w1 & H1 & Hq1 & Hl1).
    destruct (IH w1 Hq1) as (w2 & H2 & Hq2 & Hl2).
    exists w2. cbn [play]. rewrite H1, H2. repeat split; try apply Hq2.
    congruence.
Qed.

Section FromPromise.
Variables (fuel : nat) (promise : nat).

Definition promise_fulfilled : value -> Prog unit :=
  fun data => Rx.next recorder data;; opt_call (Rx.complete recorder).
Definition promise_rejected : value -> Prog unit :=
  fun err => opt_call1 (Rx.error recorder) err.

(** Subscribed and waiting: one reaction, and a cleanup that is [skip]. *)
Definition waiting : World :=
  mkWorld [] [] [] [] [Reaction promise promise_fulfilled promise_rejected]
    [] [] [] [].

Definition settled_world (s : pstate) (lg : list call) : World :=
  mkWorld [] [] [] [(promise, s)] [] [] [] lg [].

Lemma fromPromise_start :
  exec fuel (Rx.fromPromise promise recorder) empty_world = Done skip waiting.
Proof. reflexivity. Qed.

(** The cleanup does nothing at all. *)
Lemma fromPromise_cancel w :
  jobs w = [] -> step fuel skip Unsubscribe w = Some w.
Proof. intros H. unfold step, task, run_task, drain. cbn. rewrite H. reflexivity. Qed.

Lemma fromPromise_cancels k w :
  jobs w = [] -> play fuel skip (repeat Unsubscribe k) w = Some w.
Proof.
  intros H. induction k as [|k IH]; [reflexivity|].
  cbn [repeat play]. rewrite fromPromise_cancel by exact H. exact IH.
Qed.

Lemma fromPromise_resolve v :
  step (S fuel) skip (Resolve promise v) waiting =
    Some (settled_world (Fulfilled v) [OnNext v; OnComplete]).
Proof.
  unfold step, task, settle, waiting. cbn. rewrite Nat.eqb_refl. reflexivity.
Qed.

Lemma fromPromise_reject e :
  step (S fuel) skip (Reject promise e) waiting =
    Some (settled_world (Rejected e) [OnError e]).
Proof.
  unfold step, task, settle, waiting. cbn. rewrite Nat.eqb_refl. reflexivity.
Qed.

Lemma settled_world_quiet s lg : quiet (settled_world s lg).
Proof. repeat split. Qed.

(** Whatever follows the settlement is not heard. *)
Lemma fromPromise_after s lg rest :
  heard (play (S fuel) skip rest (settled_world s lg)) = Some lg.
Proof.
  destruct (quiet_play (S fuel) rest _ (settled_world_quiet s lg))
    as (w' & H & _ & Hl).
  rewrite H. cbn. rewrite Hl. reflexivity.
Qed.
End FromPromise.

(** C9: when the promise is fulfilled the observer is told [next] with the
    value, once, and then [complete]; when it is rejected the observer is
    told [error] with the reason and neither [next] nor [complete].  Nothing
    that happens afterwards (a second settlement of the promise, a
    cancellation) adds to that. *)
Theorem fromPromise_one_delivery :
  forall (fuel promise : nat) (v e : value) (rest : list action),
    heard (session (S fuel) (Rx.fromPromise promise recorder)
             (Resolve promise v :: rest)) =
      Some [OnNext v; OnComplete]
    /\ heard (session (S fuel) (Rx.fromPromise promise recorder)
                (Reject promise e :: rest)) =
         Some [OnError e].
Proof.
  intros fuel promise v e rest. unfold session.
  rewrite fromPromise_start. cbn [drain waiting jobs]. fold (waiting promise).
  cbn [play]. rewrite fromPromise_resolve, fromPromise_reject.
  split; apply fromPromise_after.
Qed.

(** A promise that is already settled when the stream is subscribed: nothing
    is heard during the subscribe call, and the delivery follows as a job. *)
Lemma fromPromise_already_settled fuel promise v :
  let w0 := settled_world promise (Fulfilled v) [] in
  exists w,
    exec fuel (Rx.fromPromise promise recorder) w0 = Done skip w
    /\ log w = []
    /\ heard (drain (S fuel) (S fuel) w) = Some [OnNext v; OnComplete].
Proof.
  eexists. unfold exec, settled_world. cbn. rewrite Nat.eqb_refl. cbn.
  repeat split.
Qed.

(** The [catch] is chained after the [then], so it also catches what the
    observer's own [next] throws: such an observer is told [error] with what
    it threw, and not [complete]. *)
Definition throwing_observer : Rx.Observer value :=
  {| Rx.next := fun v => tell (OnNext v);; Throw (VErr TypeError);
     Rx.error := Some (fun e => tell (OnError e));
     Rx.complete := Some (tell OnComplete) |}.

Lemma fromPromise_observer_throws fuel promise v :
  heard (session (S fuel) (Rx.fromPromise promise throwing_observer)
           [Resolve promise v]) =
    Some [OnNext v; OnError (VErr TypeError)].
Proof.
  unfold session, exec. cbn. rewrite Nat.eqb_refl. reflexivity.
Qed.

(** C10: the subscription that [fromPromise] returns does nothing, so
    invoking it, any number of times, before the promise settles suppresses
    nothing: the observer is still told [next] and [complete] when the
    promise is fulfilled, or [error] when it is rejected. *)
Theorem fromPromise_cancel_is_noop :
  forall (fuel promise : nat) (v e : value) (k : nat),
    (exists w, exec fuel (Rx.fromPromise promise recorder) empty_world =
                 Done skip w)
    /\ (forall w, exec fuel skip w = Done tt w)
    /\ heard (session (S fuel) (Rx.fromPromise promise recorder)
                (repeat Unsubscribe k ++ [Resolve promise v])) =
         Some [OnNext v; OnComplete]
    /\ heard (session (S fuel) (Rx.fromPromise promise recorder)
                (repeat Unsubscribe k ++ [Reject promise e])) =
         Some [OnError e].
Proof.
  intros fuel promise v e k. split; [|split].
  - eexists. apply fromPromise_start.
  - reflexivity.
  - unfold session. rewrite fromPromise_start.
    cbn [drain waiting jobs]. fold (waiting promise).
    rewrite !play_app, fromPromise_cancels by reflexivity.
    cbn [play]. rewrite fromPromise_resolve, fromPromise_reject.
    split; reflexivity.
Qed.

(** ** flatten *)

(** A stream of streams under test: the outer producer is registration 0,
    and each value it delivers stands for a fresh inner producer, so the
    inner streams are registrations 1, 2, ... in the order of arrival. *)
Definition nested : Rx.Stream value :=
  Rx.flatten (Rx.map (fun _ : value => producer) producer).

(** The same with inner streams made from promises, as the application
    does: the value delivered by the outer producer names the promise. *)
Definition nested_promises : Rx.Stream value :=
  Rx.flatten
    (Rx.map (fun v : value => Rx.fromPromise (Z.to_nat (num v))) producer).

(** C1 on the code.  When the outer stream completes while an inner stream
    is active, [complete] is deferred until that inner stream completes
    (first part).  But the outer stream's own [complete] callback only sets
    the flag: when the outer stream completes after the last inner stream
    has completed, or without ever having produced an inner stream, the
    observer is never told [complete], although the outer stream has
    completed and no inner stream is active. *)
Theorem flatten_completion :
  forall (fuel : nat) (s v : value),
    heard (session fuel (nested recorder)
             [Emit 0%nat s; Emit 1%nat v; Finish 0%nat; Finish 1%nat]) =
      Some [OnNext v; OnComplete]
    /\ heard (session fuel (nested recorder)
                [Emit 0%nat s; Emit 1%nat v; Finish 0%nat]) =
         Some [OnNext v]
    /\ heard (session fuel (nested recorder)
                [Emit 0%nat s; Emit 1%nat v; Finish 1%nat; Finish 0%nat]) =
         Some [OnNext v]
    /\ heard (session fuel (nested recorder) [Finish 0%nat]) = Some [].
Proof. intros fuel s v. repeat split; reflexivity. Qed.

(** A new inner stream replaces the active one: the old one is cancelled
    when the new one arrives, and only the new one is heard from then on;
    the deferred [complete] then waits for the new one. *)
Lemma flatten_switches fuel s1 s2 v1 v2 v3 :
  heard (session (S fuel) (nested recorder)
           [Emit 0%nat s1; Emit 1%nat v1; Emit 0%nat s2; Emit 1%nat v2;
            Emit 2%nat v3; Finish 0%nat; Finish 1%nat; Finish 2%nat]) =
    Some [OnNext v1; OnNext v3; OnComplete]
  /\ attached (session (S fuel) (nested recorder)
                 [Emit 0%nat s1; Emit 1%nat v1; Emit 0%nat s2]) =
       Some [true; false; true].
Proof. split; reflexivity. Qed.

(** An inner stream whose cleanup does nothing, such as [fromPromise], keeps
    talking after it has been replaced: its value is forwarded, and its
    completion counts as the completion of the active inner stream. *)
Lemma flatten_stale_inner fuel x y :
  heard (session (S fuel) (nested_promises recorder)
           [Emit 0%nat (VNum 1); Emit 0%nat (VNum 2); Finish 0%nat;
            Resolve 1 x; Resolve 2 y]) =
    Some [OnNext x; OnComplete; OnNext y; OnComplete].
Proof. reflexivity. Qed.

(** ** combine *)

(** *** What the specification says

    The latest value of each input is kept, [None] while the input has
    produced none.  A value from an input updates that input's slot only; a
    tuple of all the latest values is emitted on a value when every input
    has a value, and nothing is emitted otherwise. *)
Definition remember (latest : list (option value)) (d : nat * delivery)
    : list (option value) :=
  match d with
  | (i, Value v) => <[i := Some v]> latest
  | _ => latest
  end.

Definition snapshot (latest : list (option value)) : option (list value) :=
  mapM id latest.

Definition emission (latest : list (option value)) (d : nat * delivery)
    : list (list value) :=
  match d with
  | (i, Value _) =>
      if (i <? length latest)%nat
      then match snapshot (remember latest d) with
           | Some t => [t]
           | None => []
           end
      else []
  | _ => []
  end.

Fixpoint combine_model (latest : list (option value))
    (script : list (nat * delivery)) : list (list value) :=
  match script with
  | [] => []
  | d :: rest => emission latest d ++ combine_model (remember latest d) rest
  end.

(** All that [combine] tells its observer: the tuples, each handed over as
    heap object 1; a failure of an input as it arrives; [complete] when the
    count of completions reaches the number [n] of inputs. *)
Fixpoint combine_told (n : nat) (latest : list (option value)) (completed : nat)
    (script : list (nat * delivery)) : list call :=
  match script with
  | [] => []
  | (i, d) :: rest =>
      if (i <? n)%nat then
        match d with
        | Value v =>
            (OnTuple 1%nat <$> emission latest (i, Value v)) ++
            combine_told n (<[i := Some v]> latest) completed rest
        | Failure e => OnError e :: combine_told n latest completed rest
        | Completion =>
            (if (S completed =? n)%nat then [OnComplete] else []) ++
            combine_told n latest (S completed) rest
        end
      else combine_told n latest completed rest
  end.

(** The latest values once the whole script has been delivered. *)
Definition latest_after (latest : list (option value))
    (script : list (nat * delivery)) : list (option value) :=
  fold_left remember script latest.

(** The calls of [next] among what the observer was told, whatever the
    argument: [tuple_recorder] writes [OnTuple] when it is handed an array
    and [OnNext] when it is handed anything else. *)
Definition is_next (c : call) : bool :=
  match c with
  | OnNext _ | OnTuple _ _ => true
  | _ => false
  end.

Definition next_calls (l : list call) : list call := List.filter is_next l.

Lemma next_calls_app l1 l2 :
  next_calls (l1 ++ l2) = next_calls l1 ++ next_calls l2.
Proof. apply List.filter_app. Qed.

Lemma next_calls_tuples a (ts : list (list value)) :
  next_calls (OnTuple a <$> ts) = OnTuple a <$> ts.
Proof. induction ts as [|t ts IH]; [reflexivity|]. cbn. f_equal. exact IH. Qed.

Lemma run_read_from c a idx w :
  run c (read_from a idx) w =
    Done ((fun i => slot_value (elems_of w a !! i)) <$> idx) w.
Proof.
  induction idx as [|i idx IH]; [reflexivity|].
  cbn [read_from bind arr_get run]. rewrite run_bind, IH. reflexivity.
Qed.

Lemma strict_eq_other u l : u <> VRef l -> strict_eq u (VRef l) = false.
Proof.
  destruct u as [| | |l'| |]; cbn; auto.
  intros H. apply Nat.eqb_neq. congruence.
Qed.

Lemma fmap_lookup_seq {X Y : Type} (f : option X -> Y) (xs : list X) :
  (fun j => f (xs !! j)) <$> seq 0 (length xs) = (fun x => f (Some x)) <$> xs.
Proof.
  induction xs as [|x xs IH]; [reflexivity|].
  cbn [length seq fmap list_fmap]. f_equal.
  rewrite <- IH, <- fmap_S_seq, <- list_fmap_compose. reflexivity.
Qed.

Section Combine.
Variables (fuel n : nat).

(** In the world of a subscribed [combine]: [marker] and [values] are heap
    objects 0 and 1, [unsubscribes] is heap object 2, [numData] and
    [numCompleted] are variables 0 and 1. *)
Definition combine_next (i : nat) : value -> Prog unit :=
  fun data =>
    v <- arr_get 1%nat i;;
    (if strict_eq v (VRef 0%nat) then post_incr 0%nat;; skip else skip);;
    arr_set 1%nat i data;;
    nd <- get_val 0%nat;;
    if strict_eq nd (VNum (Z.of_nat (length (producers n))))
    then Rx.next tuple_recorder (VRef 1%nat) else skip.

Definition combine_complete : Prog unit :=
  post_incr 1%nat;;
  c <- get_val 1%nat;;
  if strict_eq c (VNum (Z.of_nat (length (producers n))))
  then opt_call (Rx.complete tuple_recorder) else skip.

Definition combine_observer (i : nat) : Rx.Observer value :=
  {| Rx.next := combine_next i;
     Rx.error := Rx.error tuple_recorder;
     Rx.complete := Some combine_complete |}.

Definition combine_body (i : nat) (stream : Rx.Stream value) : Prog unit :=
  u <- stream (combine_observer i);; arr_set_fn 2%nat i u.

Definition combine_reg (i : nat) : registration :=
  Registration (combine_next i) (Rx.error tuple_recorder)
    (Some combine_complete) true.

(** A slot of [values]: the marker until the input has produced a value. *)
Definition cell (o : option value) : slot :=
  match o with
  | Some v => Val v
  | None => Val (VRef 0%nat)
  end.

Definition filled (latest : list (option value)) : nat :=
  length (omap id latest).

Definition combine_raw (nd : Z) (latest : list (option value))
    (completed : Z) (unsubs : list slot) (rg : list registration)
    (lg : list call) : World :=
  mkWorld [Val (VNum nd); Val (VNum completed)]
    [HObj; HArr (cell <$> latest); HArr unsubs] [] [] [] [] rg lg [].

(** The world of a subscribed [combine]: [numData] counts the inputs that
    have produced a value. *)
Definition combine_world (latest : list (option value)) (completed : Z)
    (unsubs : list slot) (rg : list registration) (lg : list call) : World :=
  combine_raw (Z.of_nat (filled latest)) latest completed unsubs rg lg.

Lemma filled_replicate_None m : filled (replicate m None) = 0%nat.
Proof. unfold filled. induction m; [reflexivity|]. cbn. exact IHm. Qed.

Lemma combine_subscribes :
  exec fuel (Rx.combine (producers n) tuple_recorder) empty_world =
    andThen
      (exec fuel (for_each 0%nat (producers n) combine_body)
         (combine_world (replicate n None) 0 (replicate n Blank) [] []))
      (fun _ w => Done (call_all 2%nat) w).
Proof.
  unfold Rx.combine, exec. cbn -[producers]. rewrite run_bind.
  match goal with
  | |- andThen (run _ _ ?w) _ = _ =>
      replace w with
        (combine_world (replicate n None) 0 (replicate n Blank) [] [])
  end; [reflexivity|].
  unfold combine_world, combine_raw.
  rewrite filled_replicate_None, !fmap_replicate.
  cbn. rewrite length_producers. reflexivity.
Qed.

(** The subscription loop registers one observer per input, in order. *)
Lemma combine_loop latest completed lg m : forall i unsubs rg,
  length rg = i ->
  exists unsubs',
    exec fuel (for_each i (replicate m producer) combine_body)
      (combine_world latest completed unsubs rg lg) =
    Done tt
      (combine_world latest completed unsubs'
         (rg ++ (combine_reg <$> seq i m)) lg).
Proof.
  induction m as [|m IH]; intros i unsubs rg Hi.
  - exists unsubs. cbn. rewrite app_nil_r. reflexivity.
  - destruct (IH (S i) (arr_write unsubs i (Fn (detach i)))
                (rg ++ [combine_reg i])) as [unsubs' H].
    { rewrite length_app. cbn. lia. }
    exists unsubs'. cbn [replicate for_each]. rewrite exec_bind.
    unfold exec in *. cbn -[Z.of_nat]. rewrite Hi.
    rewrite <- app_assoc in H. exact H.
Qed.

Lemma combine_start :
  exists unsubs,
    exec fuel (Rx.combine (producers n) tuple_recorder) empty_world =
      Done (call_all 2%nat)
        (combine_world (replicate n None) 0 unsubs (combine_reg <$> seq 0 n) []).
Proof.
  destruct (combine_loop (replicate n None) 0 [] n 0%nat (replicate n Blank) [])
    as [unsubs H]; [reflexivity|].
  exists unsubs. rewrite combine_subscribes. unfold producers. rewrite H.
  reflexivity.
Qed.

Lemma filled_cons o l :
  filled (o :: l) =
    (match o with Some _ => 1 | None => 0 end + filled l)%nat.
Proof. unfold filled. destruct o; reflexivity. Qed.

Lemma filled_le l : (filled l <= length l)%nat.
Proof.
  induction l as [|o l IH]; [reflexivity|].
  rewrite filled_cons, length_cons. destruct o; lia.
Qed.

Lemma filled_insert i v l :
  filled (<[i := Some v]> l) =
    match l !! i with
    | Some None => S (filled l)
    | _ => filled l
    end.
Proof.
  revert i. induction l as [|o l IH]; intros [|i]; cbn [list_insert insert lookup list_lookup];
    try reflexivity.
  - rewrite !filled_cons. destruct o; reflexivity.
  - change (filled (o :: <[i := Some v]> l) =
            match l !! i with Some None => S (filled (o :: l)) | _ => filled (o :: l) end).
    rewrite !filled_cons, IH. destruct (l !! i) as [[u|]|]; lia.
Qed.

(** The array holds a full tuple exactly when the counter has reached the
    number of inputs, and then it is the tuple of the latest values. *)
Lemma snapshot_full l :
  filled l = length l ->
  snapshot l = Some ((fun o => slot_value (Some (cell o))) <$> l).
Proof.
  unfold snapshot. induction l as [|o l IH]; [reflexivity|].
  rewrite filled_cons, length_cons. pose proof (filled_le l).
  destruct o as [v|]; [|lia]. intros H'.
  cbn. rewrite IH by lia. reflexivity.
Qed.

Lemma snapshot_partial l : filled l <> length l -> snapshot l = None.
Proof.
  unfold snapshot. induction l as [|o l IH]; [intros H; destruct H; reflexivity|].
  rewrite filled_cons, length_cons. destruct o as [v|]; [|reflexivity].
  intros H'. cbn. rewrite IH by lia. reflexivity.
Qed.

Lemma combine_store nd i v latest completed unsubs rg lg :
  (i < length latest)%nat ->
  store_elem 1%nat i (Val v) (combine_raw nd latest completed unsubs rg lg) =
    combine_raw nd (<[i := Some v]> latest) completed unsubs rg lg.
Proof.
  intros Hi. unfold store_elem, combine_raw, arr_write. cbn -[Nat.ltb].
  rewrite length_fmap.
  replace (i <? length latest)%nat with true
    by (symmetry; apply Nat.ltb_lt; exact Hi).
  rewrite list_fmap_insert. reflexivity.
Qed.

(** The tail of the [next] callback: the store into [values] and, once
    every input has a value, the emission. *)
Definition combine_emit (i : nat) (v : value) : Prog unit :=
  ArrSet 1%nat i v
    (GetVal 0%nat (fun nd =>
       if strict_eq nd (VNum (Z.of_nat (length (producers n))))
       then Rx.next tuple_recorder (VRef 1%nat) else skip)).

Lemma combine_emit_exec i v latest completed unsubs rg lg :
  (i < length latest)%nat ->
  length latest = n ->
  exec fuel (combine_emit i v)
    (combine_raw (Z.of_nat (filled (<[i := Some v]> latest))) latest
       completed unsubs rg lg) =
    Done tt
      (combine_world (<[i := Some v]> latest) completed unsubs rg
         (lg ++ match snapshot (<[i := Some v]> latest) with
                | Some t => [OnTuple 1%nat t]
                | None => []
                end)).
Proof.
  intros Hi Hn. unfold exec, combine_emit. cbn [run].
  rewrite combine_store by exact Hi.
  set (latest' := <[i := Some v]> latest).
  assert (Hlen : length latest' = n)
    by (unfold latest'; rewrite length_insert; exact Hn).
  cbn -[Z.of_nat Z.eqb filled]. rewrite length_producers.
  destruct (Nat.eq_dec (filled latest') n) as [Hfull|Hpart].
  - rewrite Hfull, Z.eqb_refl. cbn -[Z.of_nat filled].
    rewrite run_bind, run_read_from. cbn -[Z.of_nat filled].
    rewrite length_fmap, snapshot_full by lia.
    rewrite <- (length_fmap cell latest'), (fmap_lookup_seq slot_value),
      <- list_fmap_compose.
    unfold combine_world. rewrite Hfull. reflexivity.
  - replace (Z.of_nat (filled latest') =? Z.of_nat n) with false by lia.
    rewrite snapshot_partial by lia. cbn. rewrite app_nil_r. reflexivity.
Qed.

Lemma combine_next_exec i v latest completed unsubs rg lg :
  (i < length latest)%nat ->
  length latest = n ->
  Forall (fun o => o <> Some (VRef 0%nat)) latest ->
  exec fuel (combine_next i v) (combine_world latest completed unsubs rg lg) =
    Done tt
      (combine_world (<[i := Some v]> latest) completed unsubs rg
         (lg ++ match snapshot (<[i := Some v]> latest) with
                | Some t => [OnTuple 1%nat t]
                | None => []
                end)).
Proof.
  intros Hi Hn Hok.
  rewrite <- combine_emit_exec by assumption.
  unfold exec, combine_next, combine_world.
  cbn -[Z.of_nat Z.eqb Z.add filled combine_emit].
  rewrite run_bind, list_lookup_fmap, filled_insert.
  destruct (latest !! i) as [[u|]|] eqn:E.
  - cbn -[Z.of_nat Z.eqb Z.add filled combine_emit].
    rewrite strict_eq_other; [reflexivity|].
    rewrite Forall_forall in Hok. intros ->.
    eapply Hok; [eapply list_elem_of_lookup_2; exact E | reflexivity].
  - cbn -[Z.of_nat Z.eqb Z.add filled combine_emit].
    rewrite Nat2Z.inj_succ, <- Z.add_1_r. reflexivity.
  - apply lookup_ge_None in E. lia.
Qed.
(** The [complete] callback counts, and tells the observer at the [n]th
    completion. *)
Lemma combine_complete_exact latest completed unsubs rg lg :
  exec fuel combine_complete
    (combine_world latest (Z.of_nat completed) unsubs rg lg) =
    Done tt
      (combine_world latest (Z.of_nat (S completed)) unsubs rg
         (lg ++ if (S completed =? n)%nat then [OnComplete] else [])).
Proof.
  unfold exec, combine_complete.
  cbn -[Z.of_nat Z.eqb Z.add Nat.eqb filled producers].
  rewrite length_producers.
  replace (Z.of_nat completed + 1) with (Z.of_nat (S completed)) by lia.
  destruct (Nat.eqb_spec (S completed) n) as [E|E].
  - rewrite (proj2 (Z.eqb_eq _ _)) by lia. reflexivity.
  - rewrite (proj2 (Z.eqb_neq _ _)) by lia.
    unfold combine_world, combine_raw. cbn -[Z.of_nat filled].
    rewrite app_nil_r. reflexivity.
Qed.

(** One delivery: the world follows [remember], and what the observer has
    been told grows by exactly what [combine_told] says for that delivery. *)
Lemma combine_step_full d latest completed unsubs lg :
  length latest = n ->
  Forall (fun o => o <> Some (VRef 0%nat)) latest ->
  exists completed',
    step fuel (call_all 2%nat) (to_action d)
      (combine_world latest (Z.of_nat completed) unsubs
         (combine_reg <$> seq 0 n) lg) =
      Some (combine_world (remember latest d) (Z.of_nat completed') unsubs
              (combine_reg <$> seq 0 n)
              (lg ++ combine_told n latest completed [d]))
    /\ forall rest,
         combine_told n latest completed (d :: rest) =
           combine_told n latest completed [d] ++
           combine_told n (remember latest d) completed' rest.
Proof.
  intros Hn Hok. destruct d as [i d].
  unfold step, task, to_action, deliver, run_task.
  cbn [combine_told remember].
  destruct (Nat.lt_ge_cases i n) as [Hi|Hi].
  - assert (Hreg : regs (combine_world latest (Z.of_nat completed) unsubs
                           (combine_reg <$> seq 0 n) lg) !! i =
                   Some (combine_reg i)).
    { cbn [regs combine_world combine_raw].
      rewrite list_lookup_fmap, lookup_seq_lt by exact Hi. reflexivity. }
    replace (i <? n)%nat with true by (symmetry; apply Nat.ltb_lt; exact Hi).
    destruct d as [v| |e]; rewrite Hreg;
      cbn [g_attached g_next g_complete g_error combine_reg opt_call opt_call1].
    + rewrite combine_next_exec by (assumption || lia).
      exists completed. split.
      * cbn [emission remember].
        replace (i <? length latest)%nat with true
          by (symmetry; apply Nat.ltb_lt; lia).
        rewrite app_nil_r.
        destruct (snapshot (<[i := Some v]> latest)); reflexivity.
      * intros rest. rewrite app_nil_r. reflexivity.
    + rewrite combine_complete_exact. exists (S completed). split.
      * rewrite app_nil_r. reflexivity.
      * intros rest. rewrite app_nil_r. reflexivity.
    + exists completed. split; [reflexivity|]. intros rest. reflexivity.
  - assert (Hreg : regs (combine_world latest (Z.of_nat completed) unsubs
                           (combine_reg <$> seq 0 n) lg) !! i = None).
    { cbn [regs combine_world combine_raw].
      rewrite list_lookup_fmap, lookup_seq_ge by exact Hi. reflexivity. }
    replace (i <? n)%nat with false by (symmetry; apply Nat.ltb_ge; exact Hi).
    assert (Hsame : match d with
                    | Value v => <[i := Some v]> latest
                    | _ => latest
                    end = latest).
    { destruct d; [|reflexivity..]. apply list_insert_ge. lia. }
    rewrite Hsame. exists completed. rewrite app_nil_r.
    destruct d; rewrite Hreg; split; reflexivity.
Qed.

Lemma remember_length latest d : length (remember latest d) = length latest.
Proof. destruct d as [i [v| |e]]; cbn; [apply length_insert|reflexivity..]. Qed.

Lemma remember_clean latest d :
  d.2 <> Value (VRef 0%nat) ->
  Forall (fun o => o <> Some (VRef 0%nat)) latest ->
  Forall (fun o => o <> Some (VRef 0%nat)) (remember latest d).
Proof.
  destruct d as [i [v| |e]]; cbn; intros Hd Hok; try exact Hok.
  apply Forall_insert; [exact Hok|]. congruence.
Qed.

(** A whole script: the observer is told exactly what [combine_told]
    says, and the array [values] ends up holding the latest values. *)
Lemma combine_run script : forall latest completed unsubs lg,
  length latest = n ->
  Forall (fun o => o <> Some (VRef 0%nat)) latest ->
  Forall (fun d => d.2 <> Value (VRef 0%nat)) script ->
  exists completed',
    play fuel (call_all 2%nat) (to_action <$> script)
      (combine_world latest (Z.of_nat completed) unsubs
         (combine_reg <$> seq 0 n) lg) =
      Some (combine_world (latest_after latest script) (Z.of_nat completed')
              unsubs (combine_reg <$> seq 0 n)
              (lg ++ combine_told n latest completed script)).
Proof.
  induction script as [|d script IH];
    intros latest completed unsubs lg Hn Hok Hds.
  - exists completed. cbn. rewrite app_nil_r. reflexivity.
  - apply Forall_cons in Hds as [Hd Hds].
    destruct (combine_step_full d latest completed unsubs lg Hn Hok)
      as (c1 & Hstep & Hsplit).
    destruct (IH (remember latest d) c1 unsubs
                (lg ++ combine_told n latest completed [d])) as [c2 H].
    { rewrite remember_length. exact Hn. }
    { apply remember_clean; assumption. }
    { exact Hds. }
    exists c2. cbn [fmap list_fmap play].
    change (list_fmap _ _ to_action script) with (to_action <$> script).
    rewrite Hstep, H, (Hsplit script), <- app_assoc. reflexivity.
Qed.
End Combine.

(** *** The specification by itself *)

Lemma snapshot_Some latest t :
  snapshot latest = Some t ->
  length t = length latest /\ forall x, x ∈ t -> Some x ∈ latest.
Proof.
  unfold snapshot. intros H. apply mapM_Some in H. split.
  - symmetry. eapply Forall2_length. exact H.
  - intros x Hx. induction H as [|o y l k Ho H IH]; [inversion Hx|].
    cbn in Ho. subst o. apply elem_of_cons in Hx as [->|Hx].
    + left.
    + right. apply IH. exact Hx.
Qed.

Lemma snapshot_None latest i :
  latest !! i = Some None -> snapshot latest = None.
Proof.
  intros Hi. destruct (snapshot latest) as [t|] eqn:E; [|reflexivity].
  unfold snapshot in E. apply mapM_Some in E.
  destruct (Forall2_lookup_l _ _ _ _ _ E Hi) as (y & _ & Hy). discriminate.
Qed.

(** Every tuple is full and free of the marker. *)
Lemma combine_model_clean m script : forall latest,
  Forall (fun o => o <> Some (VRef m)) latest ->
  Forall (fun d => d.2 <> Value (VRef m)) script ->
  Forall (fun t => length t = length latest /\ VRef m ∉ t)
    (combine_model latest script).
Proof.
  induction script as [|d script IH]; intros latest Hok Hds; [constructor|].
  apply Forall_cons in Hds as [Hd Hds]. cbn [combine_model].
  assert (Hok' : Forall (fun o => o <> Some (VRef m)) (remember latest d)).
  { destruct d as [i [v| |e]]; cbn in *; try exact Hok.
    apply Forall_insert; [exact Hok|]. congruence. }
  assert (Hlen : length (remember latest d) = length latest).
  { destruct d as [i [v| |e]]; cbn; [apply length_insert|reflexivity..]. }
  apply Forall_app. split.
  - destruct d as [i [v| |e]]; cbn [emission]; try constructor.
    destruct (i <? length latest)%nat; [|constructor].
    destruct (snapshot (remember latest (i, Value v))) as [t|] eqn:E;
      [|constructor].
    apply snapshot_Some in E as [Ht Hin]. repeat constructor.
    + congruence.
    + intros Hm. apply Hin in Hm. rewrite Forall_forall in Hok'.
      apply (Hok' _ Hm). reflexivity.
  - rewrite <- Hlen. apply IH; assumption.
Qed.

(** Nothing is emitted while some input has not produced a value. *)
Lemma combine_model_waits i script : forall latest,
  latest !! i = Some None ->
  (forall v, (i, Value v) ∉ script) ->
  combine_model latest script = [].
Proof.
  induction script as [|d script IH]; intros latest Hi Hno; [reflexivity|].
  assert (Hi' : remember latest d !! i = Some None).
  { destruct d as [j [v| |e]]; cbn; try exact Hi.
    destruct (Nat.eq_dec j i) as [->|Hne].
    - exfalso. apply (Hno v). left.
    - rewrite list_lookup_insert_ne by exact Hne. exact Hi. }
  cbn [combine_model]. rewrite IH.
  - rewrite app_nil_r. destruct d as [j [v| |e]]; cbn [emission]; try reflexivity.
    destruct (j <? length latest)%nat; [|reflexivity].
    rewrite (snapshot_None _ i Hi'). reflexivity.
  - exact Hi'.
  - intros v Hv. apply (Hno v). right. exact Hv.
Qed.

(** The calls of [next] in [combine_told] are the tuples of
    [combine_model], and nothing else. *)
Lemma combine_told_next_calls script : forall latest completed,
  next_calls (combine_told (length latest) latest completed script) =
    OnTuple 1%nat <$> combine_model latest script.
Proof.
  induction script as [|[i d] script IH]; intros latest completed;
    [reflexivity|].
  cbn [combine_told combine_model emission remember].
  destruct (Nat.ltb_spec i (length latest)) as [Hi|Hi].
  - destruct d as [v| |e].
    + rewrite next_calls_app, next_calls_tuples, fmap_app. f_equal.
      rewrite <- (length_insert latest i (Some v)) at 1. apply IH.
    + rewrite next_calls_app.
      destruct (S completed =? length latest)%nat; apply IH.
    + apply IH.
  - destruct d as [v| |e]; try apply IH.
    rewrite list_insert_ge by lia. apply IH.
Qed.

(** C2: [combine] over any number [n] of inputs and any sequence of
    deliveries from them (values, completions and failures, in any order;
    a value may be anything but a reference to the private marker object,
    and in particular may be [undefined]).  Of all that the observer is
    told, the calls of [next] are exactly those of the specification, and
    there is no other: none until every input has produced a value (a
    completion or a failure emits none either), then on each value one call
    with the tuple of all latest values, one slot updated.  Each tuple is
    handed over as the array [values] itself (heap object 1), read here at
    the moment of the call; it has [n] entries and none is the marker (heap
    object 0). *)
Theorem combine_emits_latest_tuples :
  forall (fuel n : nat) (script : list (nat * delivery)),
    Forall (fun d => d.2 <> Value (VRef 0%nat)) script ->
    exists lg,
      heard (session fuel (Rx.combine (replicate n producer) tuple_recorder)
               (to_action <$> script)) = Some lg
      /\ next_calls lg =
           OnTuple 1%nat <$> combine_model (replicate n None) script
      /\ Forall (fun c => exists t,
                   c = OnTuple 1%nat t /\ length t = n /\ VRef 0%nat ∉ t)
           (next_calls lg)
      /\ (forall i, (i < n)%nat -> (forall v, (i, Value v) ∉ script) ->
            next_calls lg = []).
Proof.
  intros fuel n script Hds.
  assert (Hclean : Forall (fun o : option value => o <> Some (VRef 0%nat))
                     (replicate n None)).
  { apply Forall_replicate. discriminate. }
  destruct (combine_start fuel n) as [unsubs Hstart].
  destruct (combine_run fuel n script (replicate n None) 0%nat unsubs [])
    as [c Hrun]; [apply length_replicate|exact Hclean|exact Hds|].
  change (Z.of_nat 0) with 0 in Hrun.
  exists (combine_told n (replicate n None) 0 script).
  assert (Hnext :
    next_calls (combine_told n (replicate n None) 0 script) =
      OnTuple 1%nat <$> combine_model (replicate n None) script).
  { pose proof (combine_told_next_calls script (replicate n None) 0%nat) as H.
    rewrite length_replicate in H. exact H. }
  split; [|split; [exact Hnext|split]].
  - unfold producers, Rx.Subscription in Hstart. unfold session. rewrite Hstart.
    match goal with
    | |- context [drain fuel fuel ?w0] =>
        change (drain fuel fuel w0) with (Some w0)
    end.
    cbv beta iota. rewrite Hrun. reflexivity.
  - rewrite Hnext. apply Forall_fmap.
    pose proof (combine_model_clean 0%nat script (replicate n None) Hclean Hds) as H.
    rewrite length_replicate in H.
    eapply Forall_impl; [exact H|].
    intros t [Hlen Hno]. exists t. auto.
  - intros i Hi Hno. rewrite Hnext.
    rewrite (combine_model_waits i script (replicate n None)); [reflexivity| |exact Hno].
    apply lookup_replicate_2. exact Hi.
Qed.

Lemma combine_emits_latest_tuples_witness :
  let script := [(0%nat, Value (VNum 10)); (0%nat, Value (VNum 20));
                 (1%nat, Completion); (1%nat, Value VUndef);
                 (0%nat, Value (VNum 30)); (0%nat, Failure (VNum 5))] in
  exists lg,
    heard (session 0 (Rx.combine (replicate 2 producer) tuple_recorder)
             (to_action <$> script)) = Some lg
    /\ next_calls lg =
         OnTuple 1%nat <$> combine_model (replicate 2 None) script
    /\ Forall (fun c => exists t,
                 c = OnTuple 1%nat t /\ length t = 2%nat /\ VRef 0%nat ∉ t)
         (next_calls lg)
    /\ (forall i, (i < 2)%nat -> (forall v, (i, Value v) ∉ script) ->
          next_calls lg = []).
Proof.
  apply (combine_emits_latest_tuples 0 2).
  repeat constructor; discriminate.
Defined.

(** The run of the specification's example: A delivers 10 and 20 before B
    delivers its first value, here [undefined]. *)
Example combine_example :
  heard (session 0 (Rx.combine [producer; producer] tuple_recorder)
           [Emit 0%nat (VNum 10); Emit 0%nat (VNum 20); Emit 1%nat VUndef;
            Emit 0%nat (VNum 30)]) =
    Some [OnTuple 1%nat [VNum 20; VUndef]; OnTuple 1%nat [VNum 30; VUndef]].
Proof. reflexivity. Qed.


(** * Further properties *)

(** ** One producer and all it can do *)






(** ** map *)

Section Map.
Variables (fuel : nat) (f : value -> value).





End Map.


(** Two [map]s in a row are one [map] with the composed function: the same
    stream, for any upstream and any observer. *)
Theorem map_fusion :
  forall (T U V : Type) (f : T -> U) (g : U -> V) (source : Rx.Stream T)
         (observer : Rx.Observer V),
    Rx.map g (Rx.map f source) observer =
      Rx.map (fun x => g (f x)) source observer.
Proof. reflexivity. Qed.

(** ** startWith *)

Section StartWith.
Variables (fuel : nat) (x : value).




End StartWith.


(** ** pipe *)

(** [pipe] applies its functions from left to right: piping through two
    lists of functions one after the other is piping through their
    concatenation, and in particular [pipe(x, f) = f(x)] and
    [pipe(x, f, g) = g(f(x))]. *)
Theorem pipe_left_to_right :
  forall (A : Type) (x : A) (f g : A -> A) (fs gs : list (A -> A)),
    Rx.pipe x (fs ++ gs) = Rx.pipe (Rx.pipe x fs) gs
    /\ Rx.pipe x [] = x
    /\ Rx.pipe x [f] = f x
    /\ Rx.pipe x [f; g] = g (f x).
Proof.
  intros A x f g fs gs. repeat split. unfold Rx.pipe. apply fold_left_app.
Qed.

Section PipeMapScan.
Variables (fuel : nat) (f : value -> value) (g : value -> value -> value).

Definition map_scan_world (current : value) (lg : list call) : World :=
  mkWorld [Val current] [] [] [] [] []
    [Registration (fun data => scan_next g (f data)) (Rx.error recorder)
       (Rx.complete recorder) true]
    lg [].

Lemma map_scan_start seed :
  exec fuel (Rx.pipe producer [Rx.map f; Rx.scan g seed] recorder) empty_world =
    Done (detach 0%nat) (map_scan_world seed [OnNext seed]).
Proof. reflexivity. Qed.

Lemma map_scan_step current lg x :
  step fuel (detach 0%nat) (Emit 0%nat x) (map_scan_world current lg) =
    Some (map_scan_world (g current (f x)) (lg ++ [OnNext (g current (f x))])).
Proof. reflexivity. Qed.

Lemma map_scan_steps xs : forall current lg,
  heard (play fuel (detach 0%nat) (values_sent xs) (map_scan_world current lg)) =
    Some (lg ++ (OnNext <$> accumulate g current (f <$> xs))).
Proof.
  induction xs as [|x xs IH]; intros current lg.
  - cbn. rewrite app_nil_r. reflexivity.
  - cbn [values_sent List.map play]. fold (values_sent xs).
    rewrite map_scan_step, IH. cbn [fmap list_fmap accumulate].
    rewrite <- app_assoc. reflexivity.
Qed.
End PipeMapScan.

(** Operators piped onto a stream act in the order written: subscribing to
    [pipe(source, map(f), scan(g, seed))] tells the seed and then the running
    accumulation by [g] of the values mapped by [f]. *)
Theorem pipe_map_then_scan :
  forall (fuel : nat) (f : value -> value) (g : value -> value -> value)
         (seed : value) (xs : list value),
    heard (session fuel
             (Rx.subscribe recorder
                (Rx.pipe producer [Rx.map f; Rx.scan g seed]))
             (values_sent xs)) =
      Some (OnNext <$> (seed :: accumulate g seed (f <$> xs))).
Proof.
  intros fuel f g seed xs. unfold session, Rx.subscribe. rewrite map_scan_start.
  cbn [drain map_scan_world jobs]. fold (map_scan_world f g seed [OnNext seed]).
  apply map_scan_steps.
Qed.


(** ** fromEvent *)

Section FromEvent.
Variables (fuel eventType element : nat).

Definition event_cleanup : Prog unit :=
  detach 0%nat;; opt_call (Rx.complete recorder).

Definition event_world (listening : bool) (st : list (nat * pstate))
    (lg : list call) : World :=
  mkWorld [] [] [] st [] []
    [Registration (fun ev => Rx.next recorder ev) None None listening] lg [].

Lemma fromEvent_start :
  exec fuel (Rx.fromEvent eventType element recorder) empty_world =
    Done event_cleanup (event_world true [] []).
Proof. reflexivity. Qed.

Lemma fromEvent_event ev st lg :
  step fuel event_cleanup (Emit 0%nat ev) (event_world true st lg) =
    Some (event_world true st (lg ++ [OnNext ev])).
Proof. reflexivity. Qed.

Lemma fromEvent_events evs : forall st lg,
  play fuel event_cleanup (values_sent evs) (event_world true st lg) =
    Some (event_world true st (lg ++ (OnNext <$> evs))).
Proof.
  induction evs as [|ev evs IH]; intros st lg.
  - cbn. rewrite app_nil_r. reflexivity.
  - cbn [values_sent List.map play]. fold (values_sent evs).
    rewrite fromEvent_event, IH. cbn [fmap list_fmap]. rewrite <- app_assoc. reflexivity.
Qed.

Lemma fromEvent_cancel listening st lg :
  step fuel event_cleanup Unsubscribe (event_world listening st lg) =
    Some (event_world false st (lg ++ [OnComplete])).
Proof. destruct listening; reflexivity. Qed.

(** With the listener removed no event is heard; only a further invocation
    of the cleanup is, as one more [complete]. *)
Lemma fromEvent_removed_step a st lg :
  exists st',
    step fuel event_cleanup a (event_world false st lg) =
      Some (event_world false st'
              (lg ++ repeat OnComplete (cancellations [a]))).
Proof.
  destruct a as [id|p v|p e|rid v|rid|rid e|].
  - exists st. destruct id; cbn; rewrite app_nil_r; reflexivity.
  - unfold step, task, settle.
    destruct (lookup_settled p st) eqn:E; cbn; rewrite E; cbn;
      rewrite app_nil_r; eauto.
  - unfold step, task, settle.
    destruct (lookup_settled p st) eqn:E; cbn; rewrite E; cbn;
      rewrite app_nil_r; eauto.
  - exists st. cbn. rewrite app_nil_r. destruct rid as [|[|rid]]; reflexivity.
  - exists st. cbn. rewrite app_nil_r. destruct rid as [|[|rid]]; reflexivity.
  - exists st. cbn. rewrite app_nil_r. destruct rid as [|[|rid]]; reflexivity.
  - exists st. apply fromEvent_cancel.
Qed.

Lemma fromEvent_removed_play script : forall st lg,
  exists st',
    play fuel event_cleanup script (event_world false st lg) =
      Some (event_world false st'
              (lg ++ repeat OnComplete (cancellations script))).
Proof.
  induction script as [|a script IH]; intros st lg.
  - exists st. cbn. rewrite app_nil_r. reflexivity.
  - destruct (fromEvent_removed_step a st lg) as [st1 H1].
    cbn [play]. rewrite H1.
    destruct (IH st1 (lg ++ repeat OnComplete (cancellations [a])))
      as [st2 H2].
    exists st2. rewrite H2. do 2 f_equal. rewrite <- app_assoc. f_equal.
    rewrite <- repeat_app. f_equal.
    unfold cancellations. destruct a; reflexivity.
Qed.

(** While listening, a completion or failure signalled for the registration
    finds no callback: the listener was registered for events only. *)
Lemma fromEvent_no_terminal st lg :
  step fuel event_cleanup (Finish 0%nat) (event_world true st lg) =
    Some (event_world true st lg)
  /\ forall e, step fuel event_cleanup (Fail 0%nat e) (event_world true st lg) =
                 Some (event_world true st lg).
Proof. split; reflexivity. Qed.
End FromEvent.

(** [fromEvent]: every event is handed on, in order, for as long as the
    listener is registered; the stream tells neither [error] nor, by itself,
    [complete].  Invoking the subscription removes the listener and tells
    [complete], each time it is invoked; after the first time no event is
    handed on, whatever happens. *)
Theorem fromEvent_forwards_until_removed :
  forall (fuel eventType element : nat) (evs : list value) (rest : list action),
    heard (session fuel (Rx.fromEvent eventType element recorder) (values_sent evs)) =
      Some (OnNext <$> evs)
    /\ heard (session fuel (Rx.fromEvent eventType element recorder)
                (values_sent evs ++ Unsubscribe :: rest)) =
         Some ((OnNext <$> evs) ++ repeat OnComplete (S (cancellations rest)))
    /\ attached (session fuel (Rx.fromEvent eventType element recorder)
                   (values_sent evs ++ [Unsubscribe])) = Some [false].
Proof.
  intros fuel eventType element evs rest. unfold session.
  rewrite fromEvent_start. cbn [drain event_world jobs].
  fold (event_world true [] []).
  rewrite !play_app, fromEvent_events. cbn [play].
  rewrite fromEvent_cancel. split; [reflexivity|]. split; [|reflexivity].
  destruct (fromEvent_removed_play fuel rest []
              (([] ++ (OnNext <$> evs)) ++ [OnComplete])) as [st' H].
  rewrite H. cbn [heard fmap option_fmap option_map event_world log app].
  rewrite <- app_assoc. reflexivity.
Qed.

(** ** fromPromise and the observer's optional callbacks *)

(** An observer with [next] only. *)
Definition bare_recorder : Rx.Observer value :=
  {| Rx.next := fun v => tell (OnNext v);
     Rx.error := None;
     Rx.complete := None |}.

(** An observer whose [next] throws [e] after taking note of the value. *)
Definition thrower (e : value) : Rx.Observer value :=
  {| Rx.next := fun v => tell (OnNext v);; Throw e;
     Rx.error := Some (fun err => tell (OnError err));
     Rx.complete := Some (tell OnComplete) |}.

Definition heard_and_uncaught (r : option World)
    : option (list call * list value) :=
  (fun w => (log w, uncaught w)) <$> r.

(** [fromPromise] with an observer that has no [error] and no [complete]:
    fulfilment tells [next] and nothing else; a rejection is dropped in
    silence, nothing is told and nothing is thrown. *)
Theorem fromPromise_optional_callbacks :
  forall (fuel promise : nat) (v e : value),
    heard_and_uncaught
      (session (S fuel) (Rx.fromPromise promise bare_recorder)
         [Resolve promise v]) = Some ([OnNext v], [])
    /\ heard_and_uncaught
         (session (S fuel) (Rx.fromPromise promise bare_recorder)
            [Reject promise e]) = Some ([], []).
Proof.
  intros fuel promise v e.
  split; unfold session, exec; cbn; rewrite Nat.eqb_refl; reflexivity.
Qed.

(** In [promise.then(...).catch(...)] the [catch] also sees what the [then]
    callback throws: when the observer's [next] throws, the observer is told
    [error] with what was thrown, [complete] is not told, and nothing is left
    uncaught. *)
Theorem fromPromise_catches_observer :
  forall (fuel promise : nat) (v e : value),
    heard_and_uncaught
      (session (S fuel) (Rx.fromPromise promise (thrower e))
         [Resolve promise v]) = Some ([OnNext v; OnError e], []).
Proof.
  intros fuel promise v e.
  unfold session, exec. cbn. rewrite Nat.eqb_refl. reflexivity.
Qed.



(** ** Several subscriptions of one promise *)

(** Two streams subscribed one after the other; the subscription invokes
    both cleanups. *)
Definition both (s1 s2 : Prog (Prog unit)) : Prog (Prog unit) :=
  u1 <- s1;; u2 <- s2;; Ret (u1;; u2).

(** Two subscriptions of one promise: both observers are served when it
    settles, in the order of subscription.  The [catch] is chained on the
    promise that [then] returns, so the [error] callback runs one job after
    the [then] callback: when the first observer's [next] throws, the second
    observer is served before the first is told [error]. *)
Theorem fromPromise_shared :
  forall (fuel promise : nat) (v e : value),
    heard (session (S (S fuel))
             (both (Rx.fromPromise promise recorder)
                (Rx.fromPromise promise bare_recorder))
             [Resolve promise v]) = Some [OnNext v; OnComplete; OnNext v]
    /\ heard (session (S (S fuel))
                (both (Rx.fromPromise promise recorder)
                   (Rx.fromPromise promise bare_recorder))
                [Reject promise e]) = Some [OnError e]
    /\ heard (session (S (S fuel))
                (both (Rx.fromPromise promise (thrower e))
                   (Rx.fromPromise promise recorder))
                [Resolve promise v]) =
         Some [OnNext v; OnNext v; OnComplete; OnError e].
Proof.
  intros fuel promise v e.
  repeat split; unfold session, exec; cbn; rewrite !Nat.eqb_refl; reflexivity.
Qed.

(** ** take: any count, any upstream *)

(** Case analysis on the integer tests of a goal. *)
Ltac split_tests :=
  repeat match goal with
         | |- context [Z.ltb ?a ?b] => destruct (Z.ltb_spec a b); try lia
         | |- context [Z.leb ?a ?b] => destruct (Z.leb_spec a b); try lia
         end.

Section TakeRun.
Variables (fuel : nat) (n : Z).

Lemma take_run xs : forall c lg,
  0 <= c < n ->
  exists c',
    play (S fuel) (detach 0%nat) (values_sent xs) (take_world n c true lg) =
      Some (take_world n c' (Z.of_nat (length xs) <? n - c)
              (lg ++ List.map OnNext (firstn (Z.to_nat (n - c)) xs))).
Proof.
  induction xs as [|x xs IH]; intros c lg Hc.
  - exists c. cbn [values_sent List.map play length].
    rewrite firstn_nil, app_nil_r.
      split_tests; reflexivity.
  - cbn [values_sent List.map play]. fold (values_sent xs).
    replace (Z.to_nat (n - c)) with (S (Z.to_nat (n - (c + 1)))) by lia.
    cbn [firstn List.map]. rewrite length_cons.
    destruct (Z.eq_dec (c + 1) n) as [E|E].
    + exists (c + 1). rewrite take_step_last by exact E.
      rewrite take_steps_detached.
      replace (n - (c + 1)) with 0 by lia.
      split_tests; reflexivity.
    + rewrite take_step_forward by exact E.
      destruct (IH (c + 1) (lg ++ [OnNext x])) as [c' H]; [lia|].
      exists c'. rewrite H. rewrite <- app_assoc.
      split_tests; reflexivity.
Qed.

(** Over an upstream whose cleanup does nothing. *)
Definition take_deaf_world (c : Z) (lg : list call) : World :=
  mkWorld [Val (VNum c); Fn skip] [] [] [] [] []
    [Registration (take_next n) (Rx.error recorder) (Rx.complete recorder) true]
    lg [].

Lemma take_deaf_start :
  exec fuel (Rx.take n deaf_producer recorder) empty_world =
    Done skip (take_deaf_world 0 []).
Proof. reflexivity. Qed.

Lemma take_deaf_step c lg v :
  step (S fuel) skip (Emit 0%nat v) (take_deaf_world c lg) =
    Some (take_deaf_world (c + 1) (lg ++ [OnNext v])).
Proof.
  unfold step, task, deliver, run_task, exec. cbn -[Z.add Z.eqb].
  destruct (c + 1 =? n); reflexivity.
Qed.

Lemma take_deaf_steps xs : forall c lg,
  play (S fuel) skip (values_sent xs) (take_deaf_world c lg) =
    Some (take_deaf_world (c + Z.of_nat (length xs)) (lg ++ List.map OnNext xs)).
Proof.
  induction xs as [|x xs IH]; intros c lg.
  - cbn. rewrite Z.add_0_r, app_nil_r. reflexivity.
  - cbn [values_sent List.map play]. fold (values_sent xs).
    rewrite take_deaf_step, IH, <- app_assoc, length_cons.
    do 2 f_equal. lia.
Qed.

(** Over the timer source: [take]'s counter is variable 0, [unsubscribe]
    variable 1, the timer's counter variable 2. *)
Variable millis : Z.

Definition take_tick : Prog unit :=
  v <- post_incr 2%nat;; take_next n v.

Definition take_timer_world (running : bool) (c : Z) (lg : list call) : World :=
  mkWorld [Val (VNum c); Fn periodic_cleanup; Val (VNum c)] []
    [if running then Some (take_tick, millis) else None]
    [] [] [] [] lg [].

Lemma take_timer_start :
  exec fuel (Rx.take n (Rx.periodic millis) recorder) empty_world =
    Done periodic_cleanup (take_timer_world true 0 []).
Proof. reflexivity. Qed.

Lemma take_timer_tick c lg :
  c + 1 <> n ->
  step (S fuel) periodic_cleanup (Tick 0%nat) (take_timer_world true c lg) =
    Some (take_timer_world true (c + 1) (lg ++ [OnNext (VNum c)])).
Proof.
  intros Hc. unfold step, task, run_task, exec. cbn -[Z.add Z.eqb].
  replace (c + 1 =? n) with false by lia. reflexivity.
Qed.

Lemma take_timer_last c lg :
  c + 1 = n ->
  step (S fuel) periodic_cleanup (Tick 0%nat) (take_timer_world true c lg) =
    Some (take_timer_world false (c + 1) (lg ++ [OnNext (VNum c); OnComplete])).
Proof.
  intros Hc. unfold step, task, run_task, exec. cbn -[Z.add Z.eqb].
  replace (c + 1 =? n) with true by lia.
  unfold take_timer_world.
  repeat (progress (unfold with_log, with_timers, with_vars; cbn -[Z.add])).
  rewrite <- app_assoc. reflexivity.
Qed.

Lemma take_timer_cleared k : forall c lg,
  play (S fuel) periodic_cleanup (repeat (Tick 0%nat) k)
    (take_timer_world false c lg) = Some (take_timer_world false c lg).
Proof. induction k as [|k IH]; intros c lg; [reflexivity|]. cbn [repeat play]. apply IH. Qed.

Lemma take_timer_ticks k : forall c lg,
  0 <= c < n ->
  heard (play (S fuel) periodic_cleanup (repeat (Tick 0%nat) k)
           (take_timer_world true c lg)) =
    Some (lg ++ nums (count_from c (Nat.min (Z.to_nat (n - c)) k)) ++
          (if n - c <=? Z.of_nat k then [OnComplete] else [])).
Proof.
  induction k as [|k IH]; intros c lg Hc.
  - cbn [repeat play heard fmap option_fmap option_map].
    rewrite Nat.min_0_r. split_tests. cbn. rewrite app_nil_r. reflexivity.
  - cbn [repeat play].
    replace (Z.to_nat (n - c)) with (S (Z.to_nat (n - (c + 1)))) by lia.
    cbn [Nat.min count_from nums List.map].
    destruct (Z.eq_dec (c + 1) n) as [E|E].
    + rewrite take_timer_last by exact E. rewrite take_timer_cleared.
      replace (n - (c + 1)) with 0 by lia.
      split_tests; reflexivity.
    + rewrite take_timer_tick by exact E. rewrite IH by lia.
      rewrite <- app_assoc.
      split_tests; reflexivity.
Qed.
End TakeRun.

(** [take n] for [n >= 1] over a producer that honours its cleanup: the
    first [n] values are handed on, all of them when fewer than [n] arrive;
    the upstream is cancelled exactly when the [n]th has been handed on, and
    is still subscribed before that. *)
Theorem take_first_n :
  forall (fuel : nat) (n : Z) (xs : list value),
    1 <= n ->
    heard (session (S fuel) (Rx.take n producer recorder) (values_sent xs)) =
      Some (List.map OnNext (firstn (Z.to_nat n) xs))
    /\ attached (session (S fuel) (Rx.take n producer recorder) (values_sent xs)) =
         Some [Z.of_nat (length xs) <? n].
Proof.
  intros fuel n xs Hn. unfold session. rewrite take_start.
  cbn [drain take_world jobs]. fold (take_world n 0 true []).
  destruct (take_run fuel n xs 0 []) as [c' H]; [lia|].
  rewrite H, Z.sub_0_r. split; reflexivity.
Qed.

Lemma take_first_n_witness :
  heard (session 1 (Rx.take 2 producer recorder)
           (values_sent [VNum 5; VNum 6; VNum 7])) =
    Some (List.map OnNext (firstn (Z.to_nat 2) [VNum 5; VNum 6; VNum 7]))
  /\ attached (session 1 (Rx.take 2 producer recorder)
                 (values_sent [VNum 5; VNum 6; VNum 7])) =
       Some [Z.of_nat (length [VNum 5; VNum 6; VNum 7]) <? 2].
Proof. apply (take_first_n 0 2 [VNum 5; VNum 6; VNum 7]). lia. Defined.

(** [take] stops nothing by itself: over an upstream whose cleanup does
    nothing (as that of [fromPromise]), every value the upstream delivers is
    handed on, for every [n], also the values after the [n]th. *)
Theorem take_forwards_all_when_cleanup_is_noop :
  forall (fuel : nat) (n : Z) (xs : list value),
    heard (session (S fuel) (Rx.take n deaf_producer recorder) (values_sent xs)) =
      Some (List.map OnNext xs).
Proof.
  intros fuel n xs. unfold session. rewrite take_deaf_start.
  cbn [drain take_deaf_world jobs]. fold (take_deaf_world n 0 []).
  rewrite take_deaf_steps. reflexivity.
Qed.

(** [take n] for [n >= 1] over the timer source: the numbers 0 to [n - 1]
    are told, one per tick, and at the [n]th tick the timer is cleared and
    [complete] is told, once; further ticks tell nothing. *)
Theorem take_of_periodic :
  forall (fuel : nat) (n millis : Z) (k : nat),
    1 <= n ->
    heard (session (S fuel) (Rx.take n (Rx.periodic millis) recorder)
             (repeat (Tick 0%nat) k)) =
      Some (nums (count_from 0 (Nat.min (Z.to_nat n) k)) ++
            (if n <=? Z.of_nat k then [OnComplete] else [])).
Proof.
  intros fuel n millis k Hn. unfold session. rewrite take_timer_start.
  cbn [drain take_timer_world jobs]. fold (take_timer_world n millis true 0 []).
  rewrite take_timer_ticks by lia. rewrite Z.sub_0_r. reflexivity.
Qed.

Lemma take_of_periodic_witness :
  heard (session 1 (Rx.take 2 (Rx.periodic 1000) recorder)
           (repeat (Tick 0%nat) 5)) =
    Some (nums (count_from 0 (Nat.min (Z.to_nat 2) 5)) ++
          (if 2 <=? Z.of_nat 5 then [OnComplete] else [])).
Proof. apply (take_of_periodic 0 2 1000 5). lia. Defined.


(** ** Cancelling every input: merge and combine *)

(** The cleanups that [merge] and [combine] keep for producers: the [i]th
    detaches registration [i]. *)
Definition cleanups (n : nat) : list slot :=
  (fun i => Fn (detach i)) <$> seq 0 n.

Lemma arr_write_first_blank pre rest s :
  arr_write (pre ++ Blank :: rest) (length pre) s = pre ++ s :: rest.
Proof.
  unfold arr_write. rewrite length_app, length_cons.
  replace (length pre <? length pre + S (length rest))%nat with true
    by (symmetry; apply Nat.ltb_lt; lia).
  rewrite insert_app_r_alt by lia. rewrite Nat.sub_diag. reflexivity.
Qed.

Lemma cleanups_S n : cleanups (S n) = cleanups n ++ [Fn (detach n)].
Proof. unfold cleanups. rewrite seq_S, fmap_app. reflexivity. Qed.

Lemma length_cleanups n : length (cleanups n) = n.
Proof. unfold cleanups. rewrite length_fmap, length_seq. reflexivity. Qed.






Section MergeCancel.
Variables (fuel n : nat).




End MergeCancel.



(** ** combine: completions, failures, the one array, cancellation *)

Section CombineCancel.
Variables (fuel n : nat).

Lemma combine_unsub_store latest completed i rest r rg lg :
  store_elem 2%nat i (Fn (detach i))
    (with_regs (fun x => x ++ [r])
       (combine_world latest completed (cleanups i ++ Blank :: rest) rg lg)) =
    combine_world latest completed (cleanups (S i) ++ rest) (rg ++ [r]) lg.
Proof.
  unfold store_elem, with_regs, with_heap, combine_world, combine_raw, elems_of.
  cbn -[arr_write Z.of_nat cleanups filled].
  pose proof (arr_write_first_blank (cleanups i) rest (Fn (detach i))) as H.
  rewrite length_cleanups in H. rewrite H, cleanups_S, <- app_assoc.
  reflexivity.
Qed.

Lemma combine_loop_exact latest completed lg m : forall i rg,
  length rg = i ->
  exec fuel (for_each i (replicate m producer) (combine_body n))
    (combine_world latest completed (cleanups i ++ replicate m Blank) rg lg) =
  Done tt
    (combine_world latest completed (cleanups (i + m))
       (rg ++ (combine_reg n <$> seq i m)) lg).
Proof.
  induction m as [|m IH]; intros i rg Hi.
  - cbn. rewrite Nat.add_0_r, !app_nil_r. reflexivity.
  - specialize (IH (S i) (rg ++ [combine_reg n i])).
    rewrite length_app, Hi, Nat.add_1_r in IH. specialize (IH eq_refl).
    cbn [replicate for_each]. rewrite exec_bind.
    unfold exec in *. cbn -[Z.of_nat arr_write store_elem cleanups filled].
    rewrite Hi, combine_unsub_store.
    rewrite <- app_assoc in IH. cbn [app] in IH.
    replace (i + S m)%nat with (S i + m)%nat by lia. exact IH.
Qed.

Lemma combine_start_exact :
  exec fuel (Rx.combine (producers n) tuple_recorder) empty_world =
    Done (call_all 2%nat)
      (combine_world (replicate n None) 0 (cleanups n)
         (combine_reg n <$> seq 0 n) []).
Proof.
  rewrite combine_subscribes. unfold producers.
  pose proof (combine_loop_exact (replicate n None) 0 [] n 0%nat [] eq_refl) as H.
  change (cleanups 0 ++ replicate n Blank) with (replicate n Blank) in H.
  rewrite H. reflexivity.
Qed.

End CombineCancel.

Lemma combine_session fuel n script :
  Forall (fun d => d.2 <> Value (VRef 0%nat)) script ->
  exists completed,
    session fuel (Rx.combine (producers n) tuple_recorder) (to_action <$> script) =
      Some (combine_world (latest_after (replicate n None) script)
              (Z.of_nat completed) (cleanups n) (combine_reg n <$> seq 0 n)
              (combine_told n (replicate n None) 0 script)).
Proof.
  intros Hds.
  pose proof (combine_start_exact fuel n) as Hstart.
  unfold Rx.Subscription in Hstart. unfold session. rewrite Hstart.
  match goal with
  | |- context [drain fuel fuel ?w0] =>
      change (drain fuel fuel w0) with (Some w0)
  end.
  cbv beta iota.
  destruct (combine_run fuel n script (replicate n None) 0%nat (cleanups n) [])
    as [c H]; [apply length_replicate | apply Forall_replicate; discriminate
              | exact Hds |].
  exists c. exact H.
Qed.

(** [combine] over any number of inputs and any deliveries: besides the
    tuples, a failure of any input is told as it arrives, and [complete] is
    told exactly at the completion that brings the count of completions to
    the number of inputs, whether or not every input has produced a value. *)
Theorem combine_counts_completions :
  forall (fuel n : nat) (script : list (nat * delivery)),
    Forall (fun d => d.2 <> Value (VRef 0%nat)) script ->
    heard (session fuel (Rx.combine (producers n) tuple_recorder)
             (to_action <$> script)) =
      Some (combine_told n (replicate n None) 0 script).
Proof.
  intros fuel n script Hds.
  destruct (combine_session fuel n script Hds) as [c H]. rewrite H. reflexivity.
Qed.

Lemma combine_counts_completions_witness :
  heard (session 0 (Rx.combine (producers 2) tuple_recorder)
           (to_action <$> [(0%nat, Completion); (1%nat, Value (VNum 3));
                          (1%nat, Completion); (0%nat, Failure (VNum 9))])) =
    Some (combine_told 2 (replicate 2 None) 0
            [(0%nat, Completion); (1%nat, Value (VNum 3));
             (1%nat, Completion); (0%nat, Failure (VNum 9))]).
Proof.
  apply (combine_counts_completions 0 2). repeat constructor; discriminate.
Defined.

Lemma combine_told_one_array n script : forall latest completed,
  Forall (fun c => match c with OnTuple a _ => a = 1%nat | _ => True end)
    (combine_told n latest completed script).
Proof.
  induction script as [|[i d] script IH]; intros latest completed;
    [constructor|].
  cbn [combine_told]. destruct (i <? n)%nat; [|apply IH].
  destruct d as [v| |e].
  - apply Forall_app. split; [|apply IH].
    apply Forall_fmap, Forall_forall. intros t _. reflexivity.
  - apply Forall_app. split; [|apply IH].
    destruct (S completed =? n)%nat; repeat constructor.
  - constructor; [exact I | apply IH].
Qed.

(** [combine] keeps a single array.  Every tuple is handed over as that
    array (heap object 1), and the array is written in place: after the run
    it holds the latest value of every input that has produced one, so an
    observer that kept an earlier tuple finds the later values in it. *)
Theorem combine_hands_over_one_array :
  forall (fuel n : nat) (script : list (nat * delivery)),
    Forall (fun d => d.2 <> Value (VRef 0%nat)) script ->
    exists w,
      session fuel (Rx.combine (producers n) tuple_recorder)
        (to_action <$> script) = Some w
      /\ heap w !! 1%nat =
           Some (HArr (cell <$> latest_after (replicate n None) script))
      /\ Forall (fun c => match c with OnTuple a _ => a = 1%nat | _ => True end)
           (log w).
Proof.
  intros fuel n script Hds.
  destruct (combine_session fuel n script Hds) as [c H].
  eexists. split; [exact H|]. split; [reflexivity|].
  apply combine_told_one_array.
Qed.

Lemma combine_hands_over_one_array_witness :
  exists w,
    session 0 (Rx.combine (producers 2) tuple_recorder)
      (to_action <$> [(0%nat, Value (VNum 1)); (1%nat, Value (VNum 2));
                     (0%nat, Value (VNum 3))]) = Some w
    /\ heap w !! 1%nat =
         Some (HArr (cell <$> latest_after (replicate 2 None)
                       [(0%nat, Value (VNum 1)); (1%nat, Value (VNum 2));
                        (0%nat, Value (VNum 3))]))
    /\ Forall (fun c => match c with OnTuple a _ => a = 1%nat | _ => True end)
         (log w).
Proof.
  apply (combine_hands_over_one_array 0 2). repeat constructor; discriminate.
Defined.




(** ** flatten: the latest inner stream, and cancellation *)




Section Flatten.
Variable fuel : nat.

(** In the world of a subscribed [flatten]: [innerSub] is variable 0,
    [outerCompleted] variable 1 and [unsubscribe] variable 2. *)
Definition flat_inner : Rx.Observer value :=
  {| Rx.next := fun data => Rx.next recorder data;
     Rx.error := Rx.error recorder;
     Rx.complete := Some (
       set_val 0%nat VUndef;;
       oc <- get_val 1%nat;;
       if truthy oc then opt_call (Rx.complete recorder) else skip) |}.

Definition flat_outer_next (stream : Rx.Stream value) : Prog unit :=
  call_opt 0%nat;;
  s <- stream flat_inner;;
  set_fn 0%nat s.

Definition flat_outer_reg (on : bool) : registration :=
  Registration (fun data => flat_outer_next ((fun _ : value => producer) data))
    (Rx.error recorder) (Some (set_val 1%nat (VBool true))) on.

Definition flat_inner_reg (on : bool) : registration :=
  Registration (Rx.next flat_inner) (Rx.error flat_inner)
    (Rx.complete flat_inner) on.

Definition flat_cleanup : Prog unit := call_fn 2%nat;; call_opt 0%nat.









End Flatten.





(** ** flatten over promises *)

(** The promises named by the outer stream, and their settlements, as
    scripts. *)
Definition names (ps : list nat) : list action :=
  (fun p => Emit 0%nat (VNum (Z.of_nat p))) <$> ps.
Definition fulfils (xs : list (nat * value)) : list action :=
  (fun r => Resolve r.1 r.2) <$> xs.

Section FlattenPromises.
Variable fuel : nat.

Definition flatp_outer_reg : registration :=
  Registration
    (fun data =>
       flat_outer_next
         ((fun v : value => Rx.fromPromise (Z.to_nat (num v))) data))
    (Rx.error recorder) (Some (set_val 1%nat (VBool true))) true.

Definition flatp_reaction (p : nat) : reaction :=
  Reaction p
    (fun data => Rx.next flat_inner data;; opt_call (Rx.complete flat_inner))
    (fun err => opt_call1 (Rx.error flat_inner) err).

(** [innerSub] is [undefined] or the empty cleanup of [fromPromise]. *)
Definition flatp_world (active : bool) (oc : bool) (st : list (nat * pstate))
    (pending : list nat) (lg : list call) : World :=
  mkWorld
    [if active then Fn skip else Val VUndef; Val (VBool oc); Fn (detach 0%nat)]
    [] [] st (flatp_reaction <$> pending) [] [flatp_outer_reg] lg [].

Lemma flatp_start :
  exec fuel (nested_promises recorder) empty_world =
    Done flat_cleanup (flatp_world false false [] [] []).
Proof. reflexivity. Qed.

Lemma flatp_arrive p active pending lg :
  step (S fuel) flat_cleanup (Emit 0%nat (VNum (Z.of_nat p)))
    (flatp_world active false [] pending lg) =
    Some (flatp_world true false [] (pending ++ [p]) lg).
Proof.
  unfold step, task, deliver, run_task, exec, flatp_world.
  cbn -[Z.of_nat Z.to_nat]. rewrite Nat2Z.id, fmap_app.
  destruct active; reflexivity.
Qed.

Lemma flatp_arrivals ps : forall active pending lg,
  play (S fuel) flat_cleanup (names ps) (flatp_world active false [] pending lg) =
    Some (flatp_world (match ps with [] => active | _ => true end) false []
            (pending ++ ps) lg).
Proof.
  induction ps as [|p ps IH]; intros active pending lg.
  - cbn. rewrite app_nil_r. reflexivity.
  - cbn [names fmap list_fmap play].
    change (list_fmap _ _ (fun p => Emit 0%nat (VNum (Z.of_nat p))) ps)
      with (names ps).
    rewrite flatp_arrive, IH, <- app_assoc. cbn [app].
    destruct ps; reflexivity.
Qed.

Lemma flatp_outer_completes active st pending lg :
  step fuel flat_cleanup (Finish 0%nat) (flatp_world active false st pending lg) =
    Some (flatp_world active true st pending lg).
Proof. reflexivity. Qed.

Lemma flatp_mine p pending :
  NoDup pending -> p ∈ pending ->
  List.filter (fun r => Nat.eqb (r_promise r) p) (flatp_reaction <$> pending) =
    [flatp_reaction p]
  /\ List.filter (fun r => negb (Nat.eqb (r_promise r) p))
       (flatp_reaction <$> pending) =
     flatp_reaction <$> List.filter (fun q => negb (Nat.eqb q p)) pending.
Proof.
  induction pending as [|q pending IH]; intros Hnd Hin; [inversion Hin|].
  apply NoDup_cons in Hnd as [Hq Hnd]. cbn [fmap list_fmap List.filter r_promise flatp_reaction].
  change (list_fmap _ _ flatp_reaction pending) with (flatp_reaction <$> pending).
  destruct (Nat.eqb_spec q p) as [->|Hne]; cbn [negb].
  - assert (Hnone : forall l, p ∉ l ->
      List.filter (fun r => Nat.eqb (r_promise r) p) (flatp_reaction <$> l) = []
      /\ List.filter (fun r => negb (Nat.eqb (r_promise r) p))
           (flatp_reaction <$> l) =
         flatp_reaction <$> List.filter (fun q => negb (Nat.eqb q p)) l).
    { induction l as [|y l IHl]; intros Hy; [split; reflexivity|].
      apply not_elem_of_cons in Hy as [Hy1 Hy2].
      destruct (IHl Hy2) as [H1 H2].
      cbn [fmap list_fmap List.filter r_promise flatp_reaction].
      change (list_fmap _ _ flatp_reaction l) with (flatp_reaction <$> l).
      destruct (Nat.eqb_spec y p) as [->|_]; [congruence|]. cbn [negb].
      rewrite H1, H2. split; reflexivity. }
    destruct (Hnone pending Hq) as [H1 H2]. rewrite H1, H2. split; reflexivity.
  - apply elem_of_cons in Hin as [->|Hin]; [congruence|].
    destruct (IH Hnd Hin) as [H1 H2]. rewrite H1, H2. split; reflexivity.
Qed.

(** The job of a fulfilled promise: its stream's value is handed on and,
    the outer stream having completed, [complete] is told, whether or not
    the stream is the latest. *)
Lemma flatp_job p x (active : bool) st pending lg :
  drain (S fuel) (S fuel)
    (mkWorld
       [if active then Fn skip else Val VUndef; Val (VBool true);
        Fn (detach 0%nat)]
       [] [] st (flatp_reaction <$> pending)
       [reaction_job (Fulfilled x) (r_fulfilled (flatp_reaction p))
          (r_rejected (flatp_reaction p))]
       [flatp_outer_reg] lg []) =
    Some (flatp_world false true st pending (lg ++ [OnNext x; OnComplete])).
Proof.
  unfold drain, flatp_world. cbn [jobs Nat.mul Nat.add drain_jobs].
  unfold run_job, exec. cbn [reaction_job j_run flatp_reaction r_fulfilled].
  destruct active; cbn; unfold with_log, with_vars, with_jobs; cbn;
    rewrite <- app_assoc; reflexivity.
Qed.

Lemma flatp_fulfil p x active st pending lg :
  NoDup pending -> p ∈ pending -> lookup_settled p st = None ->
  step (S fuel) flat_cleanup (Resolve p x)
    (flatp_world active true st pending lg) =
    Some (flatp_world false true ((p, Fulfilled x) :: st)
            (List.filter (fun q => negb (Nat.eqb q p)) pending)
            (lg ++ [OnNext x; OnComplete])).
Proof.
  intros Hnd Hin Hst. unfold step, task, settle.
  cbn [settled reactions flatp_world]. rewrite Hst.
  destruct (flatp_mine p pending Hnd Hin) as [H1 H2]. rewrite H1, H2.
  apply flatp_job.
Qed.

Lemma flatp_fulfils xs : forall active st pending lg,
  NoDup pending -> NoDup xs.*1 ->
  Forall (fun p => p ∈ pending /\ lookup_settled p st = None) xs.*1 ->
  heard (play (S fuel) flat_cleanup (fulfils xs)
           (flatp_world active true st pending lg)) =
    Some (lg ++ flat_map (fun r => [OnNext r.2; OnComplete]) xs).
Proof.
  induction xs as [|[p x] xs IH]; intros active st pending lg Hnd Hxs Hin.
  - cbn. rewrite app_nil_r. reflexivity.
  - cbn [fmap list_fmap fst] in Hxs, Hin.
    apply NoDup_cons in Hxs as [Hp Hxs].
    apply Forall_cons in Hin as [[Hp1 Hp2] Hin].
    cbn [fulfils fmap list_fmap play fst snd].
    change (list_fmap _ _ (fun r => Resolve r.1 r.2) xs) with (fulfils xs).
    rewrite flatp_fulfil by assumption.
    rewrite IH.
    + cbn [flat_map snd]. rewrite <- app_assoc. reflexivity.
    + apply NoDup_ListNoDup, List.NoDup_filter, NoDup_ListNoDup. exact Hnd.
    + exact Hxs.
    + rewrite Forall_forall in Hin. apply Forall_forall. intros q Hq.
      destruct (Hin q Hq) as [Hq1 Hq2].
      assert (Hne : q <> p) by (intros ->; exact (Hp Hq)).
      split.
      * apply list_elem_of_In, List.filter_In. split.
        -- apply list_elem_of_In. exact Hq1.
        -- apply negb_true_iff, Nat.eqb_neq. exact Hne.
      * cbn [lookup_settled].
        replace (q =? p)%nat with false by (symmetry; apply Nat.eqb_neq; exact Hne).
        exact Hq2.
Qed.
End FlattenPromises.

(** An inner stream made by [fromPromise] cannot be silenced, its cleanup
    does nothing.  When the outer stream names the promises [ps] one after
    the other, each replacing the one before, and then completes, every one
    of them is still heard when it is fulfilled, not only the latest: its
    value is handed on, and its completion is taken for that of the active
    inner stream, so [complete] is told after each of them. *)
Theorem flatten_hears_every_promise :
  forall (fuel : nat) (ps : list nat) (xs : list (nat * value)),
    NoDup ps -> NoDup xs.*1 -> Forall (fun p => p ∈ ps) xs.*1 ->
    heard (session (S fuel) (nested_promises recorder)
             (names ps ++ Finish 0%nat :: fulfils xs)) =
      Some (flat_map (fun r => [OnNext r.2; OnComplete]) xs).
Proof.
  intros fuel ps xs Hps Hxs Hin. unfold session. rewrite flatp_start.
  cbn [drain flatp_world jobs fmap list_fmap].
  fold (flatp_world false false [] [] []).
  rewrite play_app, flatp_arrivals. cbn [play app].
  rewrite flatp_outer_completes.
  rewrite flatp_fulfils; [reflexivity|exact Hps|exact Hxs|].
  eapply Forall_impl; [exact Hin|]. intros p Hp. split; [exact Hp|reflexivity].
Qed.

Lemma flatten_hears_every_promise_witness :
  heard (session 1 (nested_promises recorder)
           (names [1; 2; 3]%nat ++
            Finish 0%nat :: fulfils [(2%nat, VNum 7); (1%nat, VNum 8)])) =
    Some (flat_map (fun r => [OnNext r.2; OnComplete])
            [(2%nat, VNum 7); (1%nat, VNum 8)]).
Proof.
  apply (flatten_hears_every_promise 0 [1; 2; 3]%nat
           [(2%nat, VNum 7); (1%nat, VNum 8)]).
  - apply (bool_decide_unpack _). vm_compute. exact I.
  - apply (bool_decide_unpack _). vm_compute. exact I.
  - apply (bool_decide_unpack _). vm_compute. exact I.
Defined.

(** ** flatten: everything the streams can deliver *)

(** What [flatten] tells for [nested], as a state machine.  [ons] says which
    inner observers the producers still hold (the [r]th inner stream is
    registration [r + 1]), [active] whether [innerSub] holds a cleanup, which
    is then that of the inner stream that arrived last, and [oc] is
    [outerCompleted]. *)
Fixpoint flatten_told (ons : list bool) (active oc : bool)
    (script : list (nat * delivery)) : list call :=
  match script with
  | [] => []
  | (O, Value _) :: rest =>
      flatten_told
        ((if active then alter (fun _ => false) (pred (length ons)) ons
          else ons) ++ [true])
        true oc rest
  | (O, Completion) :: rest => flatten_told ons active true rest
  | (O, Failure e) :: rest => OnError e :: flatten_told ons active oc rest
  | (S r, d) :: rest =>
      match ons !! r with
      | Some true =>
          match d with
          | Value v => OnNext v :: flatten_told ons active oc rest
          | Completion =>
              (if oc then [OnComplete] else []) ++
              flatten_told ons false oc rest
          | Failure e => OnError e :: flatten_told ons active oc rest
          end
      | _ => flatten_told ons active oc rest
      end
  end.

(** Whether some inner stream completes after the outer stream has
    completed. *)
Fixpoint inner_completes_after_outer (oc : bool) (script : list (nat * delivery))
    : bool :=
  match script with
  | [] => false
  | (O, Completion) :: rest => inner_completes_after_outer true rest
  | (S _, Completion) :: rest => oc || inner_completes_after_outer oc rest
  | _ :: rest => inner_completes_after_outer oc rest
  end.

Section FlattenAll.
Variable fuel : nat.

Definition flat_state (ons : list bool) (active oc : bool) (lg : list call)
    : World :=
  mkWorld
    [if active then Fn (detach (S (pred (length ons)))) else Val VUndef;
     Val (VBool oc); Fn (detach 0%nat)]
    [] [] [] [] [] (flat_outer_reg true :: (flat_inner_reg <$> ons)) lg [].

Lemma flat_state_start :
  exec fuel (nested recorder) empty_world =
    Done flat_cleanup (flat_state [] false false []).
Proof. reflexivity. Qed.

Lemma flat_state_arrival s ons active oc lg :
  step (S fuel) flat_cleanup (Emit 0%nat s) (flat_state ons active oc lg) =
    Some (flat_state
            ((if active then alter (fun _ => false) (pred (length ons)) ons
              else ons) ++ [true])
            true oc lg).
Proof.
  unfold step, task, deliver, run_task, exec, flat_state.
  destruct active.
  - cbn -[pred]. unfold with_regs, with_vars. cbn -[pred].
    rewrite length_alter, length_fmap, length_app, length_alter, Nat.add_1_r.
    rewrite fmap_app,
      (list_fmap_alter flat_inner_reg (fun _ => false) detach_reg).
    + reflexivity.
    + apply Forall_forall. intros [] _; reflexivity.
  - cbn -[pred]. unfold with_regs, with_vars. cbn -[pred].
    rewrite length_fmap, length_app, Nat.add_1_r, fmap_app. reflexivity.
Qed.

Lemma flat_state_outer (fl : nat) d ons active oc lg :
  d <> Completion ->
  (forall v, d <> Value v) ->
  step fl flat_cleanup (to_action (0%nat, d)) (flat_state ons active oc lg) =
    Some (flat_state ons active oc (lg ++ flatten_told ons active oc [(0%nat, d)])).
Proof.
  destruct d as [v| |e]; intros H1 H2; [destruct (H2 v eq_refl)|congruence|].
  reflexivity.
Qed.

Lemma flat_state_outer_completes (fl : nat) ons active oc lg :
  step fl flat_cleanup (Finish 0%nat) (flat_state ons active oc lg) =
    Some (flat_state ons active true lg).
Proof. reflexivity. Qed.

Lemma flat_state_inner (fl : nat) r d ons active oc lg :
  step fl flat_cleanup (to_action (S r, d)) (flat_state ons active oc lg) =
    Some (flat_state ons
            (match ons !! r, d with
             | Some true, Completion => false
             | _, _ => active
             end) oc
            (lg ++ match ons !! r with
                   | Some true =>
                       match d with
                       | Value v => [OnNext v]
                       | Completion => if oc then [OnComplete] else []
                       | Failure e => [OnError e]
                       end
                   | _ => []
                   end)).
Proof.
  unfold step, task, to_action, deliver, run_task.
  assert (Hreg : regs (flat_state ons active oc lg) !! S r =
                 flat_inner_reg <$> ons !! r).
  { cbn [regs flat_state lookup list_lookup]. apply list_lookup_fmap. }
  destruct d as [v| |e]; rewrite Hreg;
    destruct (ons !! r) as [[|]|], oc, active; cbn; rewrite ?app_nil_r;
    reflexivity.
Qed.

Lemma flat_state_play script : forall ons active oc lg,
  heard (play (S fuel) flat_cleanup (to_action <$> script)
           (flat_state ons active oc lg)) =
    Some (lg ++ flatten_told ons active oc script).
Proof.
  induction script as [|[r d] script IH]; intros ons active oc lg.
  - cbn. rewrite app_nil_r. reflexivity.
  - cbn [fmap list_fmap play].
    change (list_fmap _ _ to_action script) with (to_action <$> script).
    destruct r as [|r].
    + destruct d as [v| |e].
      * cbn [to_action]. rewrite flat_state_arrival, IH. reflexivity.
      * cbn [to_action]. rewrite flat_state_outer_completes, IH. reflexivity.
      * rewrite flat_state_outer by (intros; discriminate). rewrite IH.
        cbn [flatten_told]. rewrite <- app_assoc. reflexivity.
    + rewrite flat_state_inner, IH. cbn [flatten_told].
      destruct (ons !! r) as [[|]|]; rewrite ?app_nil_r; try reflexivity.
      destruct d; rewrite <- app_assoc; reflexivity.
Qed.
End FlattenAll.

Lemma flatten_told_no_complete script : forall ons active oc,
  inner_completes_after_outer oc script = false ->
  OnComplete ∉ flatten_told ons active oc script.
Proof.
  induction script as [|[r d] script IH]; intros ons active oc H.
  - apply not_elem_of_nil.
  - destruct r as [|r]; cbn [flatten_told inner_completes_after_outer] in *.
    + destruct d as [v| |e].
      * apply IH. exact H.
      * apply IH. exact H.
      * apply not_elem_of_cons. split; [discriminate | apply IH; exact H].
    + destruct d as [v| |e].
      * destruct (ons !! r) as [[|]|]; [|apply IH; exact H..].
        apply not_elem_of_cons. split; [discriminate | apply IH; exact H].
      * apply orb_false_iff in H as [-> H].
        destruct (ons !! r) as [[|]|]; apply IH; exact H.
      * destruct (ons !! r) as [[|]|]; [|apply IH; exact H..].
        apply not_elem_of_cons. split; [discriminate | apply IH; exact H].
Qed.

(** Everything [flatten] tells, for any deliveries of the outer stream
    and of the inner streams in any order: the values and failures of the
    inner streams that are still subscribed, the failures of the outer
    stream, and [complete] at the completion of an inner stream when the
    outer stream has completed before. *)
Theorem flatten_tells :
  forall (fuel : nat) (script : list (nat * delivery)),
    heard (session (S fuel) (nested recorder) (to_action <$> script)) =
      Some (flatten_told [] false false script).
Proof.
  intros fuel script. unfold session. rewrite flat_state_start.
  cbn [drain flat_state jobs fmap list_fmap].
  fold (flat_state [] false false []).
  apply flat_state_play.
Qed.

(** [complete] is told only from the [complete] callback of an inner
    stream.  When no inner stream completes after the outer stream has
    completed, the observer is never told [complete], whatever the streams
    deliver: in particular when the outer stream completes last. *)
Theorem flatten_completes_only_with_an_inner :
  forall (fuel : nat) (script : list (nat * delivery)),
    inner_completes_after_outer false script = false ->
    exists lg,
      heard (session (S fuel) (nested recorder) (to_action <$> script)) = Some lg
      /\ OnComplete ∉ lg.
Proof.
  intros fuel script H. eexists. split.
  - unfold session. rewrite flat_state_start.
    cbn [drain flat_state jobs fmap list_fmap].
    fold (flat_state [] false false []).
    apply flat_state_play.
  - apply flatten_told_no_complete. exact H.
Qed.

Lemma flatten_completes_only_with_an_inner_witness :
  exists lg,
    heard (session 1 (nested recorder)
             (to_action <$> [(0%nat, Value VUndef); (1%nat, Value (VNum 4));
                            (1%nat, Completion); (0%nat, Completion)])) =
      Some lg
    /\ OnComplete ∉ lg.
Proof.
  apply (flatten_completes_only_with_an_inner 0
           [(0%nat, Value VUndef); (1%nat, Value (VNum 4));
            (1%nat, Completion); (0%nat, Completion)]).
  reflexivity.
Defined.
